(** * EMotionFX rendering gizmos: [ManipulatorCallback] and
      [TransformationManipulator]

    A shallow embedding of
    [Gems/EMotionFX/Code/EMotionFX/Rendering/Common/TransformationManipulator.h].

    The two classes of that header only copy, add and subtract
    [MCore::Vector3] and [MCore::Quaternion] values whose components are C++
    [float]s.  Single-precision arithmetic is embedded with the IEEE-754
    specification of the standard library ([SpecFloat], 24 bits of
    precision, infinities at exponent 128), so that rounding, signed zeros,
    infinities and NaN behave here as they do in the compiled header.

    Further down: the callback object behind the owning [mCallback] pointer,
    [struct GUID] of [AzCore/Math/Guid.h] and GraphCanvas's
    [TranslationKeyedString]. *)

From Stdlib Require Import ZArith Bool List String Lia.
From Stdlib Require Import Floats.SpecFloat.
Import ListNotations.

Local Open Scope Z_scope.

(* ================================================================== *)
(** ** MCore: scalars, vectors, quaternions *)
(* ================================================================== *)

Module MCore.

(** C++ [float]: IEEE-754 binary32. *)
Definition float : Type := spec_float.

Definition prec : Z := 24.
Definition emax : Z := 128.

(** The well-formed binary32 values: mantissa and exponent in range. *)
Definition is_float32 (x : float) : bool := valid_binary prec emax x.

(** [a + b] and [a - b] on [float], rounding to nearest, ties to even. *)
Definition fadd (a b : float) : float := SFadd prec emax a b.
Definition fsub (a b : float) : float := SFsub prec emax a b.

(** The literal [m * 2^e], rounded to binary32; [of_Z n] is the literal of
    the integer [n]. *)
Definition of_dyadic (m e : Z) : float := binary_normalize prec emax m e false.
Definition of_Z (n : Z) : float := of_dyadic n 0.

(** [0.0f] and [1.0f]. *)
Definition f_zero : float := S754_zero false.
Definition f_one : float := Eval cbv in of_Z 1.

(** [MCore::String]. *)
Definition String : Type := string.

(** Modelled from the spec: [MCore::Vector3] ([MCore/Source/Vector.h] is not
    among the sources).  The spec calls it a 3D vector; the header builds it
    from three [float] literals and uses its [operator+] and [operator-],
    which act component by component. *)
Record Vector3 : Type := mkVector3 { x : float; y : float; z : float }.

Definition Vector3_add (a b : Vector3) : Vector3 :=
  mkVector3 (fadd (x a) (x b)) (fadd (y a) (y b)) (fadd (z a) (z b)).

Definition Vector3_sub (a b : Vector3) : Vector3 :=
  mkVector3 (fsub (x a) (x b)) (fsub (y a) (y b)) (fsub (z a) (z b)).

(** Modelled from the spec: [MCore::Quaternion] (its header is not among the
    sources): four [float] components, built as [Quaternion(x, y, z, w)]. *)
Record Quaternion : Type :=
  mkQuaternion { qx : float; qy : float; qz : float; qw : float }.

End MCore.

Import MCore.

Declare Scope vec_scope.
Delimit Scope vec_scope with vec.
Infix "+" := Vector3_add : vec_scope.
Infix "-" := Vector3_sub : vec_scope.

(** Raw pointers to objects that the header never dereferences
    ([EMotionFX::ActorInstance*], [MCommon::Camera*], [RenderUtil*]): an
    address, [nullptr] being address 0. *)
Definition pointer : Type := N.
Definition nullptr : pointer := 0%N.

Definition int32 : Type := Z.
Definition uint32 : Type := Z.

(** A data member of built-in type that a constructor may leave without a
    value. *)
Inductive member (A : Type) : Type :=
| Indeterminate : member A
| Assigned : A -> member A.
Arguments Indeterminate {A}.
Arguments Assigned {A} _.

(* ================================================================== *)
(** ** class ManipulatorCallback *)
(* ================================================================== *)

Module ManipulatorCallback.

Record t : Type := mk {
  mOldValueQuat : Quaternion;
  mCurrValueQuat : Quaternion;
  mOldValueVec : Vector3;
  mCurrValueVec : Vector3;
  mActorInstance : pointer
}.

(** [ManipulatorCallback(ActorInstance*, const Vector3& oldValue)] *)
Definition New_Vector3 (actorInstance : pointer) (oldValue : Vector3) : t :=
  {| mActorInstance := actorInstance;
     mOldValueVec := oldValue;
     mCurrValueVec := oldValue;
     mCurrValueQuat := mkQuaternion f_zero f_zero f_zero f_one;
     mOldValueQuat := mkQuaternion f_zero f_zero f_zero f_one |}.

(** [ManipulatorCallback(ActorInstance*, const Quaternion& oldValue)] *)
Definition New_Quaternion (actorInstance : pointer) (oldValue : Quaternion) : t :=
  {| mActorInstance := actorInstance;
     mOldValueQuat := oldValue;
     mCurrValueQuat := oldValue;
     mOldValueVec := mkVector3 f_zero f_zero f_zero;
     mCurrValueVec := mkVector3 f_zero f_zero f_zero |}.

(** [Update(const Vector3&)] and [Update(const Quaternion&)] *)
Definition Update_Vector3 (value : Vector3) (cb : t) : t :=
  {| mOldValueQuat := mOldValueQuat cb;
     mCurrValueQuat := mCurrValueQuat cb;
     mOldValueVec := mOldValueVec cb;
     mCurrValueVec := value;
     mActorInstance := mActorInstance cb |}.

Definition Update_Quaternion (value : Quaternion) (cb : t) : t :=
  {| mOldValueQuat := mOldValueQuat cb;
     mCurrValueQuat := value;
     mOldValueVec := mOldValueVec cb;
     mCurrValueVec := mCurrValueVec cb;
     mActorInstance := mActorInstance cb |}.

(** [UpdateOldValues()]: empty body in this class. *)
Definition UpdateOldValues (cb : t) : t := cb.

Definition GetCurrValueVec (cb : t) : Vector3 := mCurrValueVec cb.
Definition GetCurrValueQuat (cb : t) : Quaternion := mCurrValueQuat cb.
Definition GetOldValueVec (cb : t) : Vector3 := mOldValueVec cb.
Definition GetOldValueQuat (cb : t) : Quaternion := mOldValueQuat cb.

(** [ApplyTransformation()] *)
Definition ApplyTransformation (cb : t) : t :=
  {| mOldValueQuat := mCurrValueQuat cb;
     mCurrValueQuat := mCurrValueQuat cb;
     mOldValueVec := mCurrValueVec cb;
     mCurrValueVec := mCurrValueVec cb;
     mActorInstance := mActorInstance cb |}.

Definition GetActorInstance (cb : t) : pointer := mActorInstance cb.

Definition GetResetFollowMode (cb : t) : bool := false.

(** One call of either overload of [Update], and a run of such calls in
    program order. *)
Inductive UpdateCall : Type :=
| UpdateVec (value : Vector3)
| UpdateQuat (value : Quaternion).

Definition call (cb : t) (c : UpdateCall) : t :=
  match c with
  | UpdateVec v => Update_Vector3 v cb
  | UpdateQuat q => Update_Quaternion q cb
  end.

Definition calls (cs : list UpdateCall) (cb : t) : t := fold_left call cs cb.

End ManipulatorCallback.

(* ================================================================== *)
(** ** class TransformationManipulator *)
(* ================================================================== *)

Module TransformationManipulator.

Inductive EGizmoType : Type :=
| GIZMOTYPE_UNKNOWN
| GIZMOTYPE_TRANSLATION
| GIZMOTYPE_ROTATION
| GIZMOTYPE_SCALE.

Definition EGizmoType_value (g : EGizmoType) : Z :=
  match g with
  | GIZMOTYPE_UNKNOWN => 0
  | GIZMOTYPE_TRANSLATION => 1
  | GIZMOTYPE_ROTATION => 2
  | GIZMOTYPE_SCALE => 3
  end.

(** The data members.  [mCallback] is an owning pointer: the object it
    points to is held in place, [None] being [nullptr]. *)
Record t : Type := mk {
  mPosition : Vector3;
  mRenderOffset : Vector3;
  mName : MCore.String;
  mTempString : MCore.String;
  mMode : member uint32;
  mScalingFactor : float;
  mCallback : option ManipulatorCallback.t;
  mSelectionLocked : bool;
  mIsVisible : bool
}.

Definition set_mPosition (v : Vector3) (m : t) : t :=
  mk v (mRenderOffset m) (mName m) (mTempString m) (mMode m)
     (mScalingFactor m) (mCallback m) (mSelectionLocked m) (mIsVisible m).
Definition set_mRenderOffset (v : Vector3) (m : t) : t :=
  mk (mPosition m) v (mName m) (mTempString m) (mMode m)
     (mScalingFactor m) (mCallback m) (mSelectionLocked m) (mIsVisible m).
Definition set_mName (s : MCore.String) (m : t) : t :=
  mk (mPosition m) (mRenderOffset m) s (mTempString m) (mMode m)
     (mScalingFactor m) (mCallback m) (mSelectionLocked m) (mIsVisible m).
Definition set_mMode (v : member uint32) (m : t) : t :=
  mk (mPosition m) (mRenderOffset m) (mName m) (mTempString m) v
     (mScalingFactor m) (mCallback m) (mSelectionLocked m) (mIsVisible m).
Definition set_mScalingFactor (v : float) (m : t) : t :=
  mk (mPosition m) (mRenderOffset m) (mName m) (mTempString m) (mMode m)
     v (mCallback m) (mSelectionLocked m) (mIsVisible m).
Definition set_mCallback (v : option ManipulatorCallback.t) (m : t) : t :=
  mk (mPosition m) (mRenderOffset m) (mName m) (mTempString m) (mMode m)
     (mScalingFactor m) v (mSelectionLocked m) (mIsVisible m).
Definition set_mSelectionLocked (v : bool) (m : t) : t :=
  mk (mPosition m) (mRenderOffset m) (mName m) (mTempString m) (mMode m)
     (mScalingFactor m) (mCallback m) v (mIsVisible m).
Definition set_mIsVisible (v : bool) (m : t) : t :=
  mk (mPosition m) (mRenderOffset m) (mName m) (mTempString m) (mMode m)
     (mScalingFactor m) (mCallback m) (mSelectionLocked m) v.

(** [TransformationManipulator(float scalingFactor = 1.0f, bool isVisible = true)].
    The body assigns six members; the two strings are default-constructed
    and [mMode] is not mentioned. *)
Definition New (scalingFactor : float) (isVisible : bool) : t :=
  {| mScalingFactor := scalingFactor;
     mIsVisible := isVisible;
     mSelectionLocked := false;
     mPosition := mkVector3 f_zero f_zero f_zero;
     mRenderOffset := mkVector3 f_zero f_zero f_zero;
     mCallback := None;
     mName := EmptyString;
     mTempString := EmptyString;
     mMode := Indeterminate |}.

(** The constructor called with no argument. *)
Definition New_default : t := New f_one true.

(** [virtual void UpdateBoundingVolumes(Camera* camera = nullptr)]: empty
    body in this class. *)
Definition UpdateBoundingVolumes (camera : pointer) (m : t) : t := m.

Definition GetPosition (m : t) : Vector3 := (mPosition m - mRenderOffset m)%vec.
Definition GetRenderOffset (m : t) : Vector3 := mRenderOffset m.

(** [Init], [SetScale] and [SetRenderOffset] are not virtual, but the
    [UpdateBoundingVolumes] they call is: they are written over the final
    overrider [ubv] that the call reaches. *)
Section Dispatch.
Variable ubv : pointer -> t -> t.

Definition Init_via (position : Vector3) (m : t) : t :=
  ubv nullptr (set_mPosition (position + mRenderOffset m)%vec m).

Definition SetScale_via (scale : float) (camera : pointer) (m : t) : t :=
  ubv camera (set_mScalingFactor scale m).

Definition SetRenderOffset_via (offset : Vector3) (m : t) : t :=
  let oldPos := GetPosition m in
  Init_via oldPos (set_mRenderOffset offset m).
End Dispatch.

(** The same members on an object whose final overrider is this class's own
    [UpdateBoundingVolumes]. *)
Definition Init (position : Vector3) (m : t) : t :=
  Init_via UpdateBoundingVolumes position m.

Definition SetScale (scale : float) (camera : pointer) (m : t) : t :=
  SetScale_via UpdateBoundingVolumes scale camera m.

Definition SetRenderOffset (offset : Vector3) (m : t) : t :=
  SetRenderOffset_via UpdateBoundingVolumes offset m.

Definition SetName (name : MCore.String) (m : t) : t := set_mName name m.
Definition GetName (m : t) : MCore.String := mName m.

Definition SetSelectionLocked (selectionLocked : bool) (m : t) : t :=
  set_mSelectionLocked selectionLocked m.
Definition GetSelectionLocked (m : t) : bool := mSelectionLocked m.

Definition SetIsVisible (isVisible : bool) (m : t) : t := set_mIsVisible isVisible m.
Definition GetIsVisible (m : t) : bool := mIsVisible m.

Definition SetMode (mode : uint32) (m : t) : t := set_mMode (Assigned mode) m.
Definition GetMode (m : t) : member uint32 := mMode m.

(** [SetCallback]: the previous callback object is deleted, the new one
    owned. *)
Definition SetCallback (callback : option ManipulatorCallback.t) (m : t) : t :=
  set_mCallback callback m.
Definition GetCallback (m : t) : option ManipulatorCallback.t := mCallback m.

Definition GetType (m : t) : EGizmoType := GIZMOTYPE_UNKNOWN.

(** [virtual void Render(camera, renderUtil)]: empty body in this class. *)
Definition Render (camera renderUtil : pointer) (m : t) : t := m.

(** [virtual void ProcessMouseInput(...)]: every parameter is marked unused,
    the body does nothing else. *)
Definition ProcessMouseInput (camera : pointer)
    (mousePosX mousePosY mouseMovementX mouseMovementY : int32)
    (leftButtonPressed middleButtonPressed rightButtonPressed : bool)
    (keyboardKeyFlags : uint32) (m : t) : t := m.

End TransformationManipulator.

(* ================================================================== *)
(** ** Runs of member-function calls *)
(* ================================================================== *)

Module Session.

(** The member functions of [ManipulatorCallback] that may change the
    object, as a caller issues them one after the other. *)
Inductive CallbackOp : Type :=
| Update (u : ManipulatorCallback.UpdateCall)
| UpdateOldValues
| ApplyTransformation.

Definition callback_step (cb : ManipulatorCallback.t) (o : CallbackOp)
    : ManipulatorCallback.t :=
  match o with
  | Update u => ManipulatorCallback.call cb u
  | UpdateOldValues => ManipulatorCallback.UpdateOldValues cb
  | ApplyTransformation => ManipulatorCallback.ApplyTransformation cb
  end.

Definition callback_run (ops : list CallbackOp) (cb : ManipulatorCallback.t)
    : ManipulatorCallback.t :=
  fold_left callback_step ops cb.

(** The non-const member functions of [TransformationManipulator]. *)
Inductive ManipulatorOp : Type :=
| Init (position : Vector3)
| SetName (name : MCore.String)
| SetSelectionLocked (selectionLocked : bool)
| SetIsVisible (isVisible : bool)
| SetScale (scale : float) (camera : pointer)
| SetMode (mode : uint32)
| SetRenderOffset (offset : Vector3)
| SetCallback (callback : option ManipulatorCallback.t)
| Render (camera renderUtil : pointer)
| ProcessMouseInput (camera : pointer)
    (mousePosX mousePosY mouseMovementX mouseMovementY : int32)
    (leftButtonPressed middleButtonPressed rightButtonPressed : bool)
    (keyboardKeyFlags : uint32).

Definition step (m : TransformationManipulator.t) (o : ManipulatorOp)
    : TransformationManipulator.t :=
  match o with
  | Init p => TransformationManipulator.Init p m
  | SetName s => TransformationManipulator.SetName s m
  | SetSelectionLocked b => TransformationManipulator.SetSelectionLocked b m
  | SetIsVisible b => TransformationManipulator.SetIsVisible b m
  | SetScale s c => TransformationManipulator.SetScale s c m
  | SetMode mode => TransformationManipulator.SetMode mode m
  | SetRenderOffset o => TransformationManipulator.SetRenderOffset o m
  | SetCallback cb => TransformationManipulator.SetCallback cb m
  | Render c r => TransformationManipulator.Render c r m
  | ProcessMouseInput c px py dx dy l mid r k =>
      TransformationManipulator.ProcessMouseInput c px py dx dy l mid r k m
  end.

Definition run (ops : list ManipulatorOp) (m : TransformationManipulator.t)
    : TransformationManipulator.t :=
  fold_left step ops m.

(** The argument of the last call in [ops] that [pick] selects, [d] when
    there is none. *)
Definition last_of {O A : Type} (pick : O -> option A) (ops : list O) (d : A) : A :=
  fold_left (fun acc o => match pick o with Some a => a | None => acc end) ops d.

Definition vec_update (o : ManipulatorCallback.UpdateCall) : option Vector3 :=
  match o with ManipulatorCallback.UpdateVec v => Some v | _ => None end.
Definition quat_update (o : ManipulatorCallback.UpdateCall) : option Quaternion :=
  match o with ManipulatorCallback.UpdateQuat q => Some q | _ => None end.

Definition name_arg (o : ManipulatorOp) : option MCore.String :=
  match o with SetName s => Some s | _ => None end.
Definition lock_arg (o : ManipulatorOp) : option bool :=
  match o with SetSelectionLocked b => Some b | _ => None end.
Definition visible_arg (o : ManipulatorOp) : option bool :=
  match o with SetIsVisible b => Some b | _ => None end.
Definition scale_arg (o : ManipulatorOp) : option float :=
  match o with SetScale s _ => Some s | _ => None end.
Definition mode_arg (o : ManipulatorOp) : option (member uint32) :=
  match o with SetMode mode => Some (Assigned mode) | _ => None end.
Definition offset_arg (o : ManipulatorOp) : option Vector3 :=
  match o with SetRenderOffset v => Some v | _ => None end.
Definition callback_arg (o : ManipulatorOp) : option (option ManipulatorCallback.t) :=
  match o with SetCallback cb => Some cb | _ => None end.

Definition is_SetMode (o : ManipulatorOp) : bool :=
  match o with SetMode _ => true | _ => false end.

(** The two member functions that assign [mPosition]. *)
Definition moves_gizmo (o : ManipulatorOp) : bool :=
  match o with Init _ | SetRenderOffset _ => true | _ => false end.

Definition vec_arg (o : CallbackOp) : option Vector3 :=
  match o with Update u => vec_update u | _ => None end.
Definition quat_arg (o : CallbackOp) : option Quaternion :=
  match o with Update u => quat_update u | _ => None end.

(** The arguments of [Init] and [SetRenderOffset] in a run are multiples of
    [2^e] below [2^23] in magnitude. *)
Definition small (n : Z) : Prop := Z.abs n < 2 ^ 23.
Definition small_grid (e : Z) (v : Vector3) : Prop :=
  exists a b c, v = mkVector3 (of_dyadic a e) (of_dyadic b e) (of_dyadic c e)
                /\ small a /\ small b /\ small c.

End Session.

(* ================================================================== *)
(** ** The callback object behind the [mCallback] pointer *)
(* ================================================================== *)

Module Ownership.

(** The live [ManipulatorCallback] objects, by address. *)
Definition store : Type := pointer -> option ManipulatorCallback.t.

Definition live (h : store) (p : pointer) : bool :=
  negb (N.eqb p nullptr) && match h p with Some _ => true | None => false end.

(** [delete p]: nothing for [nullptr]; frees a live object; has no defined
    outcome ([None]) on an address that holds no live object. *)
Definition delete (p : pointer) (h : store) : option store :=
  if N.eqb p nullptr then Some h
  else match h p with
       | Some _ => Some (fun q => if N.eqb q p then None else h q)
       | None => None
       end.

(** [SetCallback(callback)] on the member [mCallback] and the store:
    [delete mCallback; mCallback = callback;]. *)
Definition SetCallback (callback : pointer) (mCallback : pointer) (h : store)
    : option (pointer * store) :=
  match delete mCallback h with
  | Some h' => Some (callback, h')
  | None => None
  end.

(** [~TransformationManipulator()]: [delete mCallback;]. *)
Definition Destroy (mCallback : pointer) (h : store) : option store :=
  delete mCallback h.

(** What [GetCallback()] points to, as the manipulator of the previous
    section holds it: nothing for [nullptr], the object otherwise. *)
Definition pointee (mCallback : pointer) (h : store) : option ManipulatorCallback.t :=
  if N.eqb mCallback nullptr then None else h mCallback.

(** [mCallback] is [nullptr] or the address of a live object. *)
Definition owns (mCallback : pointer) (h : store) : Prop :=
  mCallback = nullptr \/ live h mCallback = true.

End Ownership.

(* ================================================================== *)
(** ** AzCore/Math/Guid.h: struct GUID *)
(* ================================================================== *)

Module Guid.

(** [unsigned char], [unsigned short] and [unsigned int] values; an
    [unsigned long] has [ulong_bits] bits, 32 or 64 with the platform. *)
Definition uchar (b : Z) : Prop := 0 <= b < 256.
Definition ushort (w : Z) : Prop := 0 <= w < 2 ^ 16.
Definition uint (l : Z) : Prop := 0 <= l < 2 ^ 32.
Definition ulong (ulong_bits : Z) (l : Z) : Prop := 0 <= l < 2 ^ ulong_bits.

(** [struct _GUID]: [Data4] is the array [unsigned char Data4\[8\]]. *)
Record t : Type := mk {
  Data1 : Z;
  Data2 : Z;
  Data3 : Z;
  Data4 : list Z
}.

Definition wf (ulong_bits : Z) (g : t) : Prop :=
  ulong ulong_bits (Data1 g) /\ ushort (Data2 g) /\ ushort (Data3 g) /\
  List.length (Data4 g) = 8%nat /\ Forall uchar (Data4 g).

(** [arr\[i\] = b] on an array: [None] when [i] is past the end. *)
Fixpoint store_at (i : nat) (b : Z) (arr : list Z) : option (list Z) :=
  match arr, i with
  | [], _ => None
  | _ :: rest, O => Some (b :: rest)
  | a :: rest, S i' =>
      match store_at i' b rest with
      | Some rest' => Some (a :: rest')
      | None => None
      end
  end.

(** The loop of the constructor: [for (it = d4.begin(); it != d4.end(); ++it)
    Data4\[it - d4.begin()\] = *it;], [i] being [it - d4.begin()]. *)
Fixpoint copy_from (i : nat) (d4 : list Z) (arr : list Z) : option (list Z) :=
  match d4 with
  | [] => Some arr
  | b :: rest =>
      match store_at i b arr with
      | Some arr' => copy_from (S i) rest arr'
      | None => None
      end
  end.

(** [_GUID(unsigned long d1, unsigned short d2, unsigned short d3,
    std::initializer_list<unsigned char> d4)].  [Data4] has no initializer:
    [storage] is what the eight bytes hold when the body starts. *)
Definition New (storage : list Z) (d1 d2 d3 : Z) (d4 : list Z) : option t :=
  match copy_from 0 d4 storage with
  | Some arr => Some (mk d1 d2 d3 arr)
  | None => None
  end.

(** [memcmp(a, b, n)] on byte arrays: the sign of the first difference among
    the first [n] bytes, 0 when there is none.  (It stops at the end of the
    shorter array; on two arrays of [n] bytes or more that never happens.) *)
Fixpoint memcmp (a b : list Z) (n : nat) : Z :=
  match n, a, b with
  | S n', u :: a', v :: b' =>
      if u <? v then -1 else if v <? u then 1 else memcmp a' b' n'
  | _, _, _ => 0
  end.

(** [operator==] and [operator!=] *)
Definition op_eq (lhs rhs : t) : bool :=
  (Data1 lhs =? Data1 rhs) && (Data2 lhs =? Data2 rhs) &&
  (Data3 lhs =? Data3 rhs) && (memcmp (Data4 lhs) (Data4 rhs) 8 =? 0).

Definition op_neq (lhs rhs : t) : bool := negb (op_eq lhs rhs).

(** [GUID_NULL()] *)
Definition GUID_NULL : t := mk 0 0 0 [0; 0; 0; 0; 0; 0; 0; 0].

(** Qt's [QUuid], as the header uses it: the public members [data1] (an
    [unsigned int]), [data2], [data3] (two [unsigned short]) and [data4]
    (eight [unsigned char]), and the constructor from these eleven values. *)
Record QUuid : Type := mkQUuid {
  data1 : Z;
  data2 : Z;
  data3 : Z;
  data4 : list Z
}.

Definition wf_QUuid (q : QUuid) : Prop :=
  uint (data1 q) /\ ushort (data2 q) /\ ushort (data3 q) /\
  List.length (data4 q) = 8%nat /\ Forall uchar (data4 q).

(** The eight elements [a\[0\]], ..., [a\[7\]] an expression lists. *)
Definition elements8 (a : list Z) : list Z :=
  [nth 0 a 0; nth 1 a 0; nth 2 a 0; nth 3 a 0;
   nth 4 a 0; nth 5 a 0; nth 6 a 0; nth 7 a 0].

(** [_GUID& operator=(const QUuid& id)]: builds a temporary with the
    constructor above and copies it. *)
Definition of_QUuid (storage : list Z) (id : QUuid) : option t :=
  New storage (data1 id) (data2 id) (data3 id) (elements8 (data4 id)).

(** [operator QUuid() const]: [Data1] is converted to the [unsigned int]
    the constructor of [QUuid] takes. *)
Definition to_QUuid (g : t) : QUuid :=
  mkQUuid (Data1 g mod 2 ^ 32) (Data2 g) (Data3 g) (elements8 (Data4 g)).

End Guid.

(* ================================================================== *)
(** ** GraphCanvas: struct TranslationKeyedString *)
(* ================================================================== *)

Module TranslationKeyedString.

(** [AZStd::string::empty()] *)
Definition string_empty (s : string) : bool :=
  match s with EmptyString => true | _ => false end.

Record t : Type := mk {
  m_fallback : string;
  m_context : string;
  m_key : string;
  m_display : string
}.

(** [TranslationKeyedString() = default]: four empty strings. *)
Definition New_default : t := mk EmptyString EmptyString EmptyString EmptyString.

(** [TranslationKeyedString(fallback, context = AZStd::string(),
    key = AZStd::string())]: [m_display] is default-constructed. *)
Definition New (fallback context key : string) : t :=
  mk fallback context key EmptyString.

(** The translator in force when a member function runs: [translate context
    key] is the [AZStd::string] built from
    [QCoreApplication::translate(context, key).toUtf8().data()]. *)
Definition translator : Type := string -> string -> string.

(** [void TranslateString()] *)
Definition TranslateString (translate : translator) (s : t) : t :=
  let display := m_fallback s in
  let display :=
    if negb (string_empty (m_context s)) && negb (string_empty (m_key s)) then
      let translatedText := translate (m_context s) (m_key s) in
      if negb (String.eqb translatedText (m_key s)) then translatedText
      else display
    else display in
  mk (m_fallback s) (m_context s) (m_key s) display.

(** [const AZStd::string& GetDisplayString() const]: the string returned and
    the object afterwards (the member function writes [m_display] through a
    [const_cast]). *)
Definition GetDisplayString (translate : translator) (s : t) : string * t :=
  let s' := if string_empty (m_display s) then TranslateString translate s else s in
  (m_display s', s').

(** [bool empty() const] *)
Definition empty (s : t) : bool :=
  string_empty (m_fallback s) && (string_empty (m_context s) || string_empty (m_key s)).

(** [bool operator==(const TranslationKeyedString& other) const] *)
Definition op_eq (s other : t) : bool :=
  String.eqb (m_fallback s) (m_fallback other)
  && String.eqb (m_context s) (m_context other)
  && String.eqb (m_key s) (m_key other).

End TranslationKeyedString.

(* ================================================================== *)
(** ** Vocabulary of the statements *)
(* ================================================================== *)

Module CB := ManipulatorCallback.
Module TM := TransformationManipulator.
Module TKS := TranslationKeyedString.

Definition Vector3_zero : Vector3 := mkVector3 f_zero f_zero f_zero.

(** No component is the negative zero. *)
Definition no_negative_zero (v : Vector3) : Prop :=
  x v <> S754_zero true /\ y v <> S754_zero true /\ z v <> S754_zero true.

(** The vector whose components are the multiples [a * 2^e], [b * 2^e] and
    [c * 2^e] of one power of two; [vec a b c] has integer components. *)
Definition grid (e : Z) (a b c : Z) : Vector3 :=
  mkVector3 (of_dyadic a e) (of_dyadic b e) (of_dyadic c e).
Definition vec (a b c : Z) : Vector3 := grid 0 a b c.

(** [n] fits the 24 bits of a binary32 mantissa; the exponents [e] at which
    every such [n * 2^e] is a normal binary32 value. *)
Definition fits24 (n : Z) : Prop := Z.abs n < 2 ^ prec.
Definition grid_exponent (e : Z) : Prop := -126 <= e <= 104.

(** Two multiples of the same power of two whose sum fits as well. *)
Definition summable (a b : Z) : Prop := fits24 a /\ fits24 b /\ fits24 (a + b).

(** The binary32 value of [n * 2^e] when [n] fits 24 bits: [n] shifted up to
    24 bits, the exponent lowered as much. *)
Definition canon (sx : bool) (n : positive) (e : Z) : float :=
  S754_finite sx (Pos.shiftl n (Z.to_N (prec - Zpos (digits2_pos n))))
              (e + Zpos (digits2_pos n) - prec).

(** The position [GetPosition] reads and the render offset are both small
    multiples of [2^e]. *)
Definition anchored (e : Z) (m : TM.t) : Prop :=
  Session.small_grid e (TM.GetPosition m) /\ Session.small_grid e (TM.mRenderOffset m).

(** One of the three components of a vector. *)
Inductive axis : Type := AxisX | AxisY | AxisZ.

Definition component (ax : axis) (v : Vector3) : float :=
  match ax with AxisX => x v | AxisY => y v | AxisZ => z v end.

Definition is_infinite (a : float) : bool :=
  match a with S754_infinity _ => true | _ => false end.
Definition is_nan (a : float) : bool :=
  match a with S754_nan => true | _ => false end.

(* ================================================================== *)
(** ** Single-precision facts used below *)
(* ================================================================== *)

(** Adding [+0.0f] gives back every value but [-0.0f] (which becomes
    [+0.0f]); subtracting [+0.0f] gives back every value. *)
Lemma fadd_zero_r (a : float) : a <> S754_zero true -> fadd a f_zero = a.
Proof.
  destruct a as [[|]| | |s m e]; intros Hneg; try reflexivity.
  now elim Hneg.
Qed.

Lemma fsub_zero_r (a : float) : fsub a f_zero = a.
Proof. destruct a as [[|]|[|] | |s m e]; reflexivity. Qed.

Lemma Vector3_eta (v : Vector3) : mkVector3 (x v) (y v) (z v) = v.
Proof. now destruct v. Qed.

Lemma Vector3_add_zero_r (v : Vector3) :
  no_negative_zero v -> (v + Vector3_zero)%vec = v.
Proof.
  intros (Hx & Hy & Hz). unfold Vector3_add; cbn [x y z Vector3_zero].
  rewrite !fadd_zero_r by assumption. apply Vector3_eta.
Qed.

Lemma Vector3_sub_zero_r (v : Vector3) : (v - Vector3_zero)%vec = v.
Proof.
  unfold Vector3_sub; cbn [x y z Vector3_zero].
  rewrite !fsub_zero_r. apply Vector3_eta.
Qed.

(** With a zero offset the sum and the difference are exact. *)
Lemma round_trip_zero_offset (v : Vector3) :
  no_negative_zero v -> ((v + Vector3_zero) - Vector3_zero)%vec = v.
Proof.
  intros Hv. now rewrite Vector3_sub_zero_r, Vector3_add_zero_r.
Qed.

(* ================================================================== *)
(** ** Exact sums on a binary grid *)
(* ================================================================== *)

(** Shifting a mantissa up adds digits; shifting it down again by the same
    amount loses nothing. *)
Lemma digits2_pos_shiftl (m : positive) (k : N) :
  Zpos (digits2_pos (Pos.shiftl m k)) = Zpos (digits2_pos m) + Z.of_N k.
Proof.
  destruct k as [|k]; cbn [Pos.shiftl Z.of_N]; [lia|].
  induction k as [|k IH] using Pos.peano_ind.
  - cbn. lia.
  - rewrite Pos.iter_succ. cbn [digits2_pos]. lia.
Qed.

Lemma iter_pos_iter {A : Type} (f : A -> A) (p : positive) (a : A) :
  iter_pos f p a = Pos.iter f a p.
Proof.
  revert a; induction p as [p IH|p IH|]; intros a; cbn [iter_pos Pos.iter].
  - rewrite !IH. now rewrite <- !Pos.iter_swap.
  - now rewrite !IH.
  - reflexivity.
Qed.

Lemma shr_iter_xO (m p : positive) :
  Pos.iter shr_1 (Build_shr_record (Zpos (Pos.iter xO m p)) false false) p
  = Build_shr_record (Zpos m) false false.
Proof.
  induction p as [|p IH] using Pos.peano_ind.
  - reflexivity.
  - rewrite Pos.iter_succ_r. rewrite Pos.iter_succ. cbn [shr_1 orb]. exact IH.
Qed.

Lemma shiftl_shiftl (m : positive) (j k : N) :
  Pos.shiftl (Pos.shiftl m j) k = Pos.shiftl m (j + k).
Proof.
  destruct k as [|k]; [rewrite N.add_0_r; reflexivity|].
  destruct j as [|j]; [reflexivity|].
  cbn [Pos.shiftl N.add]. rewrite Pos.add_comm. now rewrite Pos.iter_add.
Qed.

Lemma Zpos_shiftl (m : positive) (k : N) :
  Zpos (Pos.shiftl m k) = Zpos m * 2 ^ Z.of_N k.
Proof.
  destruct k as [|k]; cbn [Pos.shiftl Z.of_N]; [lia|].
  induction k as [|k IH] using Pos.peano_ind.
  - cbn. lia.
  - rewrite Pos.iter_succ, Pos2Z.inj_succ, Z.pow_succ_r by lia.
    rewrite Pos2Z.inj_xO, IH. ring.
Qed.

Lemma shr_fexp_shiftl (n : positive) (j k : N) (E : Z) :
  fexp prec emax (Zpos (digits2_pos n) + Z.of_N j + E) = E ->
  shr_fexp prec emax (Zpos (Pos.shiftl n (j + k))) (E - Z.of_N k) loc_Exact
  = (Build_shr_record (Zpos (Pos.shiftl n j)) false false, E).
Proof.
  intros HE. unfold shr_fexp. cbn [Zdigits2 shr_record_of_loc].
  rewrite digits2_pos_shiftl, N2Z.inj_add.
  replace (Zpos (digits2_pos n) + (Z.of_N j + Z.of_N k) + (E - Z.of_N k))
    with (Zpos (digits2_pos n) + Z.of_N j + E) by lia.
  rewrite HE.
  replace (E - (E - Z.of_N k)) with (Z.of_N k) by lia.
  destruct k as [|k]; cbn [Z.of_N shr].
  - rewrite N.add_0_r. f_equal. lia.
  - rewrite iter_pos_iter, <- shiftl_shiftl. cbn [Pos.shiftl].
    rewrite shr_iter_xO. f_equal. lia.
Qed.

Lemma binary_round_aux_shiftl (sx : bool) (n : positive) (j k : N) (E : Z) :
  fexp prec emax (Zpos (digits2_pos n) + Z.of_N j + E) = E ->
  E <= emax - prec ->
  binary_round_aux prec emax sx (Zpos (Pos.shiftl n (j + k))) (E - Z.of_N k) loc_Exact
  = S754_finite sx (Pos.shiftl n j) E.
Proof.
  intros HE Hmax. unfold binary_round_aux.
  rewrite (shr_fexp_shiftl n j k E HE).
  cbn [shr_m loc_of_shr_record round_nearest_even].
  pose proof (shr_fexp_shiftl n j 0 E HE) as H0.
  rewrite N.add_0_r in H0. cbn [Z.of_N] in H0. rewrite Z.sub_0_r in H0.
  rewrite H0. cbn [shr_m].
  apply Z.leb_le in Hmax. now rewrite Hmax.
Qed.

Lemma binary_round_shiftl (sx : bool) (n : positive) (k : N) (e : Z) :
  Zpos (digits2_pos n) <= prec -> -126 <= e <= 104 ->
  binary_round prec emax sx (Pos.shiftl n k) (e - Z.of_N k) = canon sx n e.
Proof.
  intros Hd He. unfold binary_round, canon.
  set (D := Zpos (digits2_pos n)) in *.
  assert (HD : 1 <= D) by (subst D; lia).
  rewrite digits2_pos_shiftl. fold D.
  replace (D + Z.of_N k + (e - Z.of_N k)) with (D + e) by lia.
  assert (Hf : fexp prec emax (D + e) = e + D - prec).
  { unfold fexp, emin, prec, emax in *. lia. }
  rewrite Hf. unfold shl_align.
  set (j0 := Z.to_N (prec - D)).
  assert (Hj0 : Z.of_N j0 = prec - D) by (subst j0; rewrite Z2N.id; lia).
  assert (HE : fexp prec emax (D + Z.of_N j0 + (e + D - prec)) = e + D - prec).
  { rewrite Hj0. unfold fexp, emin, prec, emax in *. lia. }
  assert (Hmax : e + D - prec <= emax - prec) by (unfold prec, emax in *; lia).
  destruct (e + D - prec - (e - Z.of_N k)) as [|d|d] eqn:Hs.
  - replace k with (j0 + 0)%N at 1 by lia.
    replace (e - Z.of_N k) with (e + D - prec - Z.of_N 0) by lia.
    now apply binary_round_aux_shiftl.
  - replace k with (j0 + (k - j0))%N at 1 by lia.
    replace (e - Z.of_N k) with (e + D - prec - Z.of_N (k - j0)) by lia.
    now apply binary_round_aux_shiftl.
  - change (Pos.iter xO (Pos.shiftl n k) d) with (Pos.shiftl (Pos.shiftl n k) (Npos d)).
    rewrite shiftl_shiftl.
    replace (k + N.pos d)%N with (j0 + 0)%N by lia.
    replace (e + D - prec) with (e + D - prec - Z.of_N 0) at 1 by (cbn; lia).
    now apply binary_round_aux_shiftl.
Qed.

Lemma digits2_pos_lower (p : positive) :
  2 ^ (Zpos (digits2_pos p) - 1) <= Zpos p.
Proof.
  induction p as [p IH|p IH|]; cbn [digits2_pos].
  - rewrite Pos2Z.inj_succ.
    replace (Z.succ (Zpos (digits2_pos p)) - 1) with (Z.succ (Zpos (digits2_pos p) - 1)) by lia.
    rewrite Z.pow_succ_r by lia. lia.
  - rewrite Pos2Z.inj_succ.
    replace (Z.succ (Zpos (digits2_pos p)) - 1) with (Z.succ (Zpos (digits2_pos p) - 1)) by lia.
    rewrite Z.pow_succ_r by lia. lia.
  - cbn. lia.
Qed.

Lemma digits2_pos_fits (p : positive) :
  Zpos p < 2 ^ prec -> Zpos (digits2_pos p) <= prec.
Proof.
  intros Hp. pose proof (digits2_pos_lower p) as Hl.
  assert (H : 2 ^ (Zpos (digits2_pos p) - 1) < 2 ^ prec) by lia.
  apply Z.pow_lt_mono_r_iff in H; unfold prec in *; lia.
Qed.

Lemma of_dyadic_pos (p : positive) (e : Z) :
  Zpos p < 2 ^ prec -> -126 <= e <= 104 ->
  of_dyadic (Zpos p) e = canon false p e.
Proof.
  intros Hp He. unfold of_dyadic, binary_normalize.
  pose proof (binary_round_shiftl false p 0 e (digits2_pos_fits p Hp) He) as H.
  cbn [Pos.shiftl Z.of_N] in H. now rewrite Z.sub_0_r in H.
Qed.

Lemma of_dyadic_neg (p : positive) (e : Z) :
  Zpos p < 2 ^ prec -> -126 <= e <= 104 ->
  of_dyadic (Zneg p) e = canon true p e.
Proof.
  intros Hp He. unfold of_dyadic, binary_normalize.
  pose proof (binary_round_shiftl true p 0 e (digits2_pos_fits p Hp) He) as H.
  cbn [Pos.shiftl Z.of_N] in H. now rewrite Z.sub_0_r in H.
Qed.

(** Rounding [n * 2^J] at exponent [e - J] is rounding [n] at exponent [e]. *)
Lemma normalize_scaled (n : Z) (J : N) (e : Z) :
  Z.abs n < 2 ^ prec -> -126 <= e <= 104 ->
  binary_normalize prec emax (n * 2 ^ Z.of_N J) (e - Z.of_N J) false = of_dyadic n e.
Proof.
  intros Hn He. destruct n as [|p|p].
  - reflexivity.
  - change (Z.abs (Zpos p)) with (Zpos p) in Hn.
    rewrite <- Zpos_shiftl, of_dyadic_pos by assumption.
    cbn [binary_normalize].
    apply binary_round_shiftl; [now apply digits2_pos_fits | assumption].
  - change (Z.abs (Zneg p)) with (Zpos p) in Hn.
    rewrite of_dyadic_neg by assumption.
    replace (Z.neg p * 2 ^ Z.of_N J) with (Z.opp (Zpos (Pos.shiftl p J)))
      by (rewrite Zpos_shiftl; lia).
    cbn [Z.opp binary_normalize].
    apply binary_round_shiftl; [now apply digits2_pos_fits | assumption].
Qed.

(** Aligning a canonical mantissa to a lower exponent. *)
Lemma shl_align_canon (p : positive) (e : Z) (J : N) :
  (Z.to_N (prec - Zpos (digits2_pos p)) <= J)%N ->
  Zpos (digits2_pos p) <= prec ->
  Zpos (fst (shl_align (Pos.shiftl p (Z.to_N (prec - Zpos (digits2_pos p))))
                       (e + Zpos (digits2_pos p) - prec) (e - Z.of_N J)))
  = Zpos p * 2 ^ Z.of_N J.
Proof.
  intros HJ Hd. unfold shl_align.
  set (j := Z.to_N (prec - Zpos (digits2_pos p))) in *.
  assert (Hj : Z.of_N j = prec - Zpos (digits2_pos p)) by (subst j; rewrite Z2N.id; lia).
  destruct (e - Z.of_N J - (e + Zpos (digits2_pos p) - prec)) as [|d|d] eqn:Hs; cbn [fst].
  - replace J with j by lia. apply Zpos_shiftl.
  - lia.
  - change (Pos.iter xO (Pos.shiftl p j) d) with (Pos.shiftl (Pos.shiftl p j) (Npos d)).
    rewrite shiftl_shiftl, Zpos_shiftl. do 2 f_equal. lia.
Qed.

Lemma canon_align (sa sb : bool) (pa pb : positive) (e : Z) :
  Zpos (digits2_pos pa) <= prec -> Zpos (digits2_pos pb) <= prec ->
  exists J : N,
    Z.min (e + Zpos (digits2_pos pa) - prec) (e + Zpos (digits2_pos pb) - prec)
      = e - Z.of_N J /\
    (Z.to_N (prec - Zpos (digits2_pos pa)) <= J)%N /\
    (Z.to_N (prec - Zpos (digits2_pos pb)) <= J)%N.
Proof.
  intros Ha Hb.
  exists (N.max (Z.to_N (prec - Zpos (digits2_pos pa))) (Z.to_N (prec - Zpos (digits2_pos pb)))).
  lia.
Qed.

Lemma fadd_canon (sa sb : bool) (pa pb : positive) (e : Z) :
  Zpos pa < 2 ^ prec -> Zpos pb < 2 ^ prec ->
  Z.abs (cond_Zopp sa (Zpos pa) + cond_Zopp sb (Zpos pb)) < 2 ^ prec ->
  -126 <= e <= 104 ->
  fadd (canon sa pa e) (canon sb pb e)
  = of_dyadic (cond_Zopp sa (Zpos pa) + cond_Zopp sb (Zpos pb)) e.
Proof.
  intros Ha Hb Hab He.
  pose proof (digits2_pos_fits pa Ha) as Da. pose proof (digits2_pos_fits pb Hb) as Db.
  destruct (canon_align sa sb pa pb e Da Db) as (J & HJ & Hja & Hjb).
  unfold fadd, canon. cbn [SFadd]. rewrite HJ.
  rewrite !shl_align_canon by assumption.
  rewrite <- (normalize_scaled _ J e Hab He). f_equal.
  destruct sa, sb; cbn [cond_Zopp]; ring.
Qed.

Lemma fsub_canon (sa sb : bool) (pa pb : positive) (e : Z) :
  Zpos pa < 2 ^ prec -> Zpos pb < 2 ^ prec ->
  Z.abs (cond_Zopp sa (Zpos pa) - cond_Zopp sb (Zpos pb)) < 2 ^ prec ->
  -126 <= e <= 104 ->
  fsub (canon sa pa e) (canon sb pb e)
  = of_dyadic (cond_Zopp sa (Zpos pa) - cond_Zopp sb (Zpos pb)) e.
Proof.
  intros Ha Hb Hab He.
  pose proof (digits2_pos_fits pa Ha) as Da. pose proof (digits2_pos_fits pb Hb) as Db.
  destruct (canon_align sa sb pa pb e Da Db) as (J & HJ & Hja & Hjb).
  unfold fsub, canon. cbn [SFsub]. rewrite HJ.
  rewrite !shl_align_canon by assumption.
  rewrite <- (normalize_scaled _ J e Hab He). f_equal.
  destruct sa, sb; cbn [cond_Zopp]; ring.
Qed.

Lemma of_dyadic_canon (n : Z) (e : Z) :
  n <> 0 -> Z.abs n < 2 ^ prec -> -126 <= e <= 104 ->
  of_dyadic n e = canon (n <? 0) (Z.to_pos (Z.abs n)) e /\
  Zpos (Z.to_pos (Z.abs n)) < 2 ^ prec /\
  cond_Zopp (n <? 0) (Zpos (Z.to_pos (Z.abs n))) = n.
Proof.
  intros Hn Hb He. destruct n as [|p|p]; [easy| |].
  - change (Z.abs (Zpos p)) with (Zpos p) in *. cbn [Z.to_pos Z.ltb Z.compare cond_Zopp].
    repeat split; [now apply of_dyadic_pos | assumption].
  - change (Z.abs (Zneg p)) with (Zpos p) in *. cbn [Z.to_pos Z.ltb Z.compare cond_Zopp Z.opp].
    repeat split; [now apply of_dyadic_neg | assumption].
Qed.

(** On the grid of the multiples of [2^e] that fit 24 bits, the sum and the
    difference are exact. *)
Lemma fadd_of_dyadic (a b e : Z) :
  Z.abs a < 2 ^ prec -> Z.abs b < 2 ^ prec -> Z.abs (a + b) < 2 ^ prec ->
  -126 <= e <= 104 ->
  fadd (of_dyadic a e) (of_dyadic b e) = of_dyadic (a + b) e.
Proof.
  intros Ha Hb Hab He.
  destruct (Z.eq_dec a 0) as [->|Na]; destruct (Z.eq_dec b 0) as [->|Nb].
  - reflexivity.
  - rewrite Z.add_0_l.
    destruct (of_dyadic_canon b e Nb Hb He) as (-> & _ & _). reflexivity.
  - rewrite Z.add_0_r.
    destruct (of_dyadic_canon a e Na Ha He) as (-> & _ & _). reflexivity.
  - destruct (of_dyadic_canon a e Na Ha He) as (Ea & Pa & Sa).
    destruct (of_dyadic_canon b e Nb Hb He) as (Eb & Pb & Sb).
    rewrite Ea, Eb. rewrite <- Sa, <- Sb in Hab.
    rewrite fadd_canon by assumption. now rewrite Sa, Sb.
Qed.

Lemma fsub_of_dyadic (a b e : Z) :
  Z.abs a < 2 ^ prec -> Z.abs b < 2 ^ prec -> Z.abs (a - b) < 2 ^ prec ->
  -126 <= e <= 104 ->
  fsub (of_dyadic a e) (of_dyadic b e) = of_dyadic (a - b) e.
Proof.
  intros Ha Hb Hab He.
  destruct (Z.eq_dec a 0) as [->|Na]; destruct (Z.eq_dec b 0) as [->|Nb].
  - reflexivity.
  - destruct (of_dyadic_canon b e Nb Hb He) as (Eb & Pb & Sb).
    rewrite Eb. change (of_dyadic 0 e) with (S754_zero false).
    unfold fsub, canon. cbn [SFsub].
    assert (Hn : - b <> 0) by lia.
    assert (Hnb : Z.abs (- b) < 2 ^ prec) by (rewrite Z.abs_opp; assumption).
    destruct (of_dyadic_canon (- b) e Hn Hnb He) as (En & _ & _).
    change (0 - b) with (- b). rewrite En. unfold canon.
    rewrite Z.abs_opp. f_equal.
    destruct b; cbn; easy.
  - rewrite Z.sub_0_r.
    destruct (of_dyadic_canon a e Na Ha He) as (-> & _ & _). reflexivity.
  - destruct (of_dyadic_canon a e Na Ha He) as (Ea & Pa & Sa).
    destruct (of_dyadic_canon b e Nb Hb He) as (Eb & Pb & Sb).
    rewrite Ea, Eb. rewrite <- Sa, <- Sb in Hab.
    rewrite fsub_canon by assumption. now rewrite Sa, Sb.
Qed.

Lemma round_trip_of_dyadic (a b e : Z) :
  Z.abs a < 2 ^ prec -> Z.abs b < 2 ^ prec -> Z.abs (a + b) < 2 ^ prec ->
  -126 <= e <= 104 ->
  fsub (fadd (of_dyadic a e) (of_dyadic b e)) (of_dyadic b e) = of_dyadic a e.
Proof.
  intros Ha Hb Hab He.
  rewrite fadd_of_dyadic, fsub_of_dyadic by (try assumption; now replace (a + b - b) with a by lia).
  f_equal. lia.
Qed.

Lemma round_trip_grid (e a1 a2 a3 b1 b2 b3 : Z) :
  grid_exponent e -> summable a1 b1 -> summable a2 b2 -> summable a3 b3 ->
  ((grid e a1 a2 a3 + grid e b1 b2 b3) - grid e b1 b2 b3)%vec = grid e a1 a2 a3.
Proof.
  intros He (A1 & B1 & S1) (A2 & B2 & S2) (A3 & B3 & S3).
  unfold grid, Vector3_add, Vector3_sub; cbn [x y z].
  now rewrite !round_trip_of_dyadic.
Qed.

(** [2^24 + 1] is not a binary32 value: adding one to [2^24] is absorbed. *)
Lemma fadd_absorbs_one : fadd (of_Z 1) (of_Z 16777216) = of_Z 16777216.
Proof. vm_compute. reflexivity. Qed.

Lemma example_values_are_float32 :
  forallb is_float32 [of_Z 0; of_Z 1; of_Z 2; of_Z 3; of_Z 16777216] = true.
Proof. vm_compute. reflexivity. Qed.

(* ================================================================== *)
(** ** What the getters read after each member function *)
(* ================================================================== *)

Lemma Init_fields (p : Vector3) (m : TM.t) :
  TM.Init p m = TM.set_mPosition (p + TM.mRenderOffset m)%vec m.
Proof. reflexivity. Qed.

Lemma GetPosition_Init (p : Vector3) (m : TM.t) :
  TM.GetPosition (TM.Init p m) = ((p + TM.mRenderOffset m) - TM.mRenderOffset m)%vec.
Proof. reflexivity. Qed.

Lemma GetPosition_SetRenderOffset (o : Vector3) (m : TM.t) :
  TM.GetPosition (TM.SetRenderOffset o m) = ((TM.GetPosition m + o) - o)%vec.
Proof. reflexivity. Qed.

Lemma GetRenderOffset_SetRenderOffset (o : Vector3) (m : TM.t) :
  TM.GetRenderOffset (TM.SetRenderOffset o m) = o.
Proof. reflexivity. Qed.

(** The two equations above on an object of a derived class, as long as its
    [UpdateBoundingVolumes] keeps [mPosition] and [mRenderOffset]. *)
Section Overrider.
Variable ubv : pointer -> TM.t -> TM.t.
Hypothesis ubv_keeps_anchor : forall c m,
  TM.mPosition (ubv c m) = TM.mPosition m /\
  TM.mRenderOffset (ubv c m) = TM.mRenderOffset m.

Lemma GetPosition_Init_via (p : Vector3) (m : TM.t) :
  TM.GetPosition (TM.Init_via ubv p m)
  = ((p + TM.mRenderOffset m) - TM.mRenderOffset m)%vec.
Proof.
  unfold TM.GetPosition, TM.Init_via.
  destruct (ubv_keeps_anchor nullptr
              (TM.set_mPosition (p + TM.mRenderOffset m)%vec m)) as [-> ->].
  reflexivity.
Qed.

(** X9.  With such an override, [SetRenderOffset o] makes [GetPosition] the
    previous [GetPosition] plus [o] minus [o], in single precision, as it
    does with the [UpdateBoundingVolumes] of the base class. *)
Lemma GetPosition_SetRenderOffset_via (o : Vector3) (m : TM.t) :
  TM.GetPosition (TM.SetRenderOffset_via ubv o m)
  = ((TM.GetPosition m + o) - o)%vec.
Proof.
  unfold TM.SetRenderOffset_via. rewrite GetPosition_Init_via. reflexivity.
Qed.
End Overrider.

(** X6.  On a manipulator that never received a render offset, [Init] followed by
    [GetPosition] is exact. *)
Lemma GetPosition_Init_zero_offset (p : Vector3) (m : TM.t) :
  TM.mRenderOffset m = Vector3_zero -> no_negative_zero p ->
  TM.GetPosition (TM.Init p m) = p.
Proof.
  intros Hr Hp. rewrite GetPosition_Init, Hr. now apply round_trip_zero_offset.
Qed.

(** When the position and the offsets are multiples of one power of two and
    the sums fit 24 bits, nothing is rounded. *)
Lemma GetPosition_Init_on_grid (m : TM.t) (e a1 a2 a3 r1 r2 r3 : Z) :
  TM.mRenderOffset m = grid e r1 r2 r3 ->
  grid_exponent e -> summable a1 r1 -> summable a2 r2 -> summable a3 r3 ->
  TM.GetPosition (TM.Init (grid e a1 a2 a3) m) = grid e a1 a2 a3.
Proof.
  intros Hr He H1 H2 H3. rewrite GetPosition_Init, Hr. now apply round_trip_grid.
Qed.

Lemma GetPosition_SetRenderOffset_on_grid (m : TM.t) (e a1 a2 a3 o1 o2 o3 : Z) :
  TM.GetPosition m = grid e a1 a2 a3 ->
  grid_exponent e -> summable a1 o1 -> summable a2 o2 -> summable a3 o3 ->
  TM.GetPosition (TM.SetRenderOffset (grid e o1 o2 o3) m) = grid e a1 a2 a3.
Proof.
  intros Hq He H1 H2 H3. rewrite GetPosition_SetRenderOffset, Hq.
  now apply round_trip_grid.
Qed.

Lemma call_old_values (c : CB.UpdateCall) (cb : CB.t) :
  CB.mOldValueVec (CB.call cb c) = CB.mOldValueVec cb /\
  CB.mOldValueQuat (CB.call cb c) = CB.mOldValueQuat cb /\
  CB.mActorInstance (CB.call cb c) = CB.mActorInstance cb.
Proof. destruct c; repeat split. Qed.

(* ================================================================== *)
(** ** ManipulatorCallback: old and current value *)
(* ================================================================== *)

(** C2.  Any finite run of [Update] calls, of either overload and in any
    order, on any callback state leaves what [GetOldValueVec] and
    [GetOldValueQuat] return as it was before the run. *)
Theorem Update_calls_keep_old_values (cs : list CB.UpdateCall) (cb : CB.t) :
  CB.GetOldValueVec (CB.calls cs cb) = CB.GetOldValueVec cb /\
  CB.GetOldValueQuat (CB.calls cs cb) = CB.GetOldValueQuat cb.
Proof.
  unfold CB.GetOldValueVec, CB.GetOldValueQuat, CB.calls.
  revert cb; induction cs as [|c cs IH]; intros cb; cbn [fold_left].
  - split; reflexivity.
  - destruct (IH (CB.call cb c)) as [Hv Hq].
    destruct (call_old_values c cb) as (Hv' & Hq' & _).
    rewrite Hv, Hq. now split.
Qed.

(** C3.  [ApplyTransformation] commits the current value: the old value
    after the call is the current value before it, the current value is kept,
    and so, right after the call, the old value and the current value
    coincide, for the vector and for the quaternion. *)
Theorem ApplyTransformation_collapses (cb : CB.t) :
  (CB.GetOldValueVec (CB.ApplyTransformation cb) = CB.GetCurrValueVec cb /\
   CB.GetOldValueQuat (CB.ApplyTransformation cb) = CB.GetCurrValueQuat cb) /\
  (CB.GetCurrValueVec (CB.ApplyTransformation cb) = CB.GetCurrValueVec cb /\
   CB.GetCurrValueQuat (CB.ApplyTransformation cb) = CB.GetCurrValueQuat cb) /\
  (CB.GetOldValueVec (CB.ApplyTransformation cb)
     = CB.GetCurrValueVec (CB.ApplyTransformation cb) /\
   CB.GetOldValueQuat (CB.ApplyTransformation cb)
     = CB.GetCurrValueQuat (CB.ApplyTransformation cb)).
Proof. repeat split. Qed.

(** C5.  [ApplyTransformation] called twice in a row yields the state that
    one call yields. *)
Theorem ApplyTransformation_idempotent (cb : CB.t) :
  CB.ApplyTransformation (CB.ApplyTransformation cb) = CB.ApplyTransformation cb.
Proof. reflexivity. Qed.

(** C6.  The vector constructor sets both quaternion members to
    [(0, 0, 0, 1)]; the quaternion constructor sets both vector members to
    [(0, 0, 0)]. *)
Theorem constructors_unbound_kind (a : pointer) (v : Vector3) (q : Quaternion) :
  (CB.GetOldValueQuat (CB.New_Vector3 a v) = mkQuaternion f_zero f_zero f_zero f_one /\
   CB.GetCurrValueQuat (CB.New_Vector3 a v) = mkQuaternion f_zero f_zero f_zero f_one) /\
  (CB.GetOldValueVec (CB.New_Quaternion a q) = mkVector3 f_zero f_zero f_zero /\
   CB.GetCurrValueVec (CB.New_Quaternion a q) = mkVector3 f_zero f_zero f_zero).
Proof. repeat split. Qed.

(** C10.  Right after either constructor the current value is the old value
    of the bound kind (and of the other kind too), so that
    [ApplyTransformation] on the fresh object changes nothing. *)
Theorem constructors_current_is_old (a : pointer) (v : Vector3) (q : Quaternion) :
  (CB.GetCurrValueVec (CB.New_Vector3 a v) = CB.GetOldValueVec (CB.New_Vector3 a v) /\
   CB.GetOldValueVec (CB.New_Vector3 a v) = v /\
   CB.ApplyTransformation (CB.New_Vector3 a v) = CB.New_Vector3 a v) /\
  (CB.GetCurrValueQuat (CB.New_Quaternion a q) = CB.GetOldValueQuat (CB.New_Quaternion a q) /\
   CB.GetOldValueQuat (CB.New_Quaternion a q) = q /\
   CB.ApplyTransformation (CB.New_Quaternion a q) = CB.New_Quaternion a q).
Proof. repeat split. Qed.

(* ================================================================== *)
(** ** TransformationManipulator: position and render offset *)
(* ================================================================== *)

(** C4, as stated, fails: with a render offset of [2^24] along x, [Init] at
    [(1, 0, 0)] stores [2^24] (the sum [2^24 + 1] is rounded) and
    [GetPosition] reads back [(0, 0, 0)]. *)
Lemma Init_GetPosition_counterexample :
  let m := TM.SetRenderOffset (vec 16777216 0 0) TM.New_default in
  TM.GetRenderOffset m = vec 16777216 0 0 /\
  TM.GetPosition (TM.Init (vec 1 0 0) m) = vec 0 0 0 /\
  TM.GetPosition (TM.Init (vec 1 0 0) m) <> vec 1 0 0.
Proof.
  cbv zeta. split; [|split].
  - vm_compute. reflexivity.
  - vm_compute. reflexivity.
  - vm_compute. discriminate.
Qed.

(** C4, amended.  After [Init p], on every state and for every [p],
    [mPosition] is [p + mRenderOffset], the render offset is untouched and
    [GetPosition] is [mPosition - mRenderOffset], all in single precision;
    [GetPosition] returns [p] itself exactly when adding the render offset to
    [p] and taking it off again gives [p]. *)
Theorem Init_GetPosition (m : TM.t) (p : Vector3) :
  TM.mPosition (TM.Init p m) = (p + TM.mRenderOffset m)%vec /\
  TM.mRenderOffset (TM.Init p m) = TM.mRenderOffset m /\
  TM.GetPosition (TM.Init p m)
    = (TM.mPosition (TM.Init p m) - TM.mRenderOffset (TM.Init p m))%vec /\
  (TM.GetPosition (TM.Init p m) = p
   <-> ((p + TM.mRenderOffset m) - TM.mRenderOffset m)%vec = p).
Proof.
  repeat split; rewrite GetPosition_Init; intros H; exact H.
Qed.

Lemma Init_GetPosition_witness :
  let m := TM.SetRenderOffset (vec 10 (-4) 7) TM.New_default in
  ((vec 1 2 3 + TM.mRenderOffset m) - TM.mRenderOffset m)%vec = vec 1 2 3 /\
  TM.GetPosition (TM.Init (vec 1 2 3) m) = vec 1 2 3.
Proof.
  cbv zeta. split.
  - vm_compute. reflexivity.
  - apply (Init_GetPosition (TM.SetRenderOffset (vec 10 (-4) 7) TM.New_default) (vec 1 2 3)).
    vm_compute. reflexivity.
Defined.

(** C1, as stated, fails: after [Init] at [(1, 0, 0)] on a fresh manipulator,
    [SetRenderOffset] with [(2^24, 0, 0)] makes [GetPosition] return
    [(0, 0, 0)]. *)
Lemma SetRenderOffset_GetPosition_counterexample :
  let m := TM.Init (vec 1 0 0) TM.New_default in
  TM.GetPosition m = vec 1 0 0 /\
  TM.GetPosition (TM.SetRenderOffset (vec 16777216 0 0) m) = vec 0 0 0 /\
  TM.GetPosition (TM.SetRenderOffset (vec 16777216 0 0) m) <> TM.GetPosition m.
Proof.
  cbv zeta. split; [|split].
  - vm_compute. reflexivity.
  - vm_compute. reflexivity.
  - vm_compute. discriminate.
Qed.

(** C1, amended.  After [Init p], whatever the render offset was and for
    every [o], [SetRenderOffset o] makes [o] the render offset, stores the
    value [GetPosition] had plus [o] in [mPosition], and [GetPosition] then
    returns that sum minus [o], all in single precision; [GetPosition] is
    unchanged exactly when adding [o] to the value it had and taking it off
    again gives that value. *)
Theorem SetRenderOffset_GetPosition (m0 : TM.t) (p o : Vector3) :
  TM.GetRenderOffset (TM.SetRenderOffset o (TM.Init p m0)) = o /\
  TM.mPosition (TM.SetRenderOffset o (TM.Init p m0))
    = (TM.GetPosition (TM.Init p m0) + o)%vec /\
  TM.GetPosition (TM.SetRenderOffset o (TM.Init p m0))
    = ((TM.GetPosition (TM.Init p m0) + o) - o)%vec /\
  (TM.GetPosition (TM.SetRenderOffset o (TM.Init p m0)) = TM.GetPosition (TM.Init p m0)
   <-> ((TM.GetPosition (TM.Init p m0) + o) - o)%vec = TM.GetPosition (TM.Init p m0)).
Proof.
  repeat split; rewrite GetPosition_SetRenderOffset; intros H; exact H.
Qed.

Lemma SetRenderOffset_GetPosition_witness :
  let m0 := TM.SetRenderOffset (vec 5 0 (-2)) TM.New_default in
  let q := TM.GetPosition (TM.Init (vec 1 2 3) m0) in
  ((q + vec 10 (-4) 7) - vec 10 (-4) 7)%vec = q /\
  TM.GetPosition (TM.SetRenderOffset (vec 10 (-4) 7) (TM.Init (vec 1 2 3) m0)) = q.
Proof.
  cbv zeta. split.
  - vm_compute. reflexivity.
  - apply (SetRenderOffset_GetPosition
             (TM.SetRenderOffset (vec 5 0 (-2)) TM.New_default) (vec 1 2 3) (vec 10 (-4) 7)).
    vm_compute. reflexivity.
Defined.

(* ================================================================== *)
(** ** TransformationManipulator: scale, input, construction *)
(* ================================================================== *)

(** C7.  [ProcessMouseInput] of this class returns the manipulator as it
    received it, callback included, whatever the camera, the mouse position
    and movement, the buttons and the key flags; so it does on a manipulator
    whose selection is locked. *)
Theorem ProcessMouseInput_noop (camera : pointer)
    (mousePosX mousePosY mouseMovementX mouseMovementY : int32)
    (left middle right : bool) (keyboardKeyFlags : uint32) (m : TM.t) :
  TM.ProcessMouseInput camera mousePosX mousePosY mouseMovementX mouseMovementY
    left middle right keyboardKeyFlags m = m /\
  TM.ProcessMouseInput camera mousePosX mousePosY mouseMovementX mouseMovementY
    left middle right keyboardKeyFlags (TM.SetSelectionLocked true m)
  = TM.SetSelectionLocked true m.
Proof. split; reflexivity. Qed.

(** C8.  [SetScale s c] stores [s] in [mScalingFactor] and then hands the
    camera [c] it was given to [UpdateBoundingVolumes], whichever override
    the call reaches; with the [UpdateBoundingVolumes] of this class every
    other member keeps its value. *)
Theorem SetScale_spec (s : float) (c : pointer) (m : TM.t) :
  (forall ubv, TM.SetScale_via ubv s c m = ubv c (TM.set_mScalingFactor s m)) /\
  TM.SetScale s c m = TM.UpdateBoundingVolumes c (TM.set_mScalingFactor s m) /\
  TM.mScalingFactor (TM.SetScale s c m) = s /\
  TM.mPosition (TM.SetScale s c m) = TM.mPosition m /\
  TM.mRenderOffset (TM.SetScale s c m) = TM.mRenderOffset m /\
  TM.mIsVisible (TM.SetScale s c m) = TM.mIsVisible m /\
  TM.mSelectionLocked (TM.SetScale s c m) = TM.mSelectionLocked m /\
  TM.mMode (TM.SetScale s c m) = TM.mMode m /\
  TM.mCallback (TM.SetScale s c m) = TM.mCallback m /\
  TM.mName (TM.SetScale s c m) = TM.mName m /\
  TM.mTempString (TM.SetScale s c m) = TM.mTempString m.
Proof. repeat split. Qed.

(** C9, as stated, fails: on the default-constructed manipulator [GetMode]
    does not return an assigned 0 (the constructor gives [mMode] no value),
    the scaling factor is [1.0f] and the manipulator is visible. *)
Lemma default_constructed_counterexample :
  ~ (TM.mScalingFactor TM.New_default = f_zero /\
     TM.GetIsVisible TM.New_default = false /\
     TM.GetMode TM.New_default = Assigned 0%Z) /\
  TM.GetMode TM.New_default <> Assigned 0%Z.
Proof.
  split.
  - intros (_ & _ & Hmode). discriminate Hmode.
  - discriminate.
Qed.

(** C9, amended.  The constructor sets the position and the render offset to
    the zero vector, unlocks the selection, holds no callback and leaves both
    names empty; the scaling factor and the visibility are its two arguments,
    [1.0f] and [true] when they are omitted. *)
Theorem constructed_state (scalingFactor : float) (isVisible : bool) :
  (TM.mPosition (TM.New scalingFactor isVisible) = mkVector3 f_zero f_zero f_zero /\
   TM.GetRenderOffset (TM.New scalingFactor isVisible) = mkVector3 f_zero f_zero f_zero /\
   TM.GetPosition (TM.New scalingFactor isVisible) = mkVector3 f_zero f_zero f_zero /\
   TM.GetSelectionLocked (TM.New scalingFactor isVisible) = false /\
   TM.GetCallback (TM.New scalingFactor isVisible) = None /\
   TM.GetName (TM.New scalingFactor isVisible) = EmptyString /\
   TM.mTempString (TM.New scalingFactor isVisible) = EmptyString /\
   TM.mScalingFactor (TM.New scalingFactor isVisible) = scalingFactor /\
   TM.GetIsVisible (TM.New scalingFactor isVisible) = isVisible) /\
  TM.New_default = TM.New f_one true /\
  f_one = of_Z 1.
Proof. repeat split. Qed.

(* ================================================================== *)
(** ** Runs of calls on a callback *)
(* ================================================================== *)

Lemma last_of_cons {O A : Type} (pick : O -> option A) (o : O) (ops : list O) (d : A) :
  Session.last_of pick (o :: ops) d
  = Session.last_of pick ops (match pick o with Some a => a | None => d end).
Proof. reflexivity. Qed.

Lemma last_of_none {O A : Type} (ops : list O) (d : A) :
  Session.last_of (fun _ : O => @None A) ops d = d.
Proof. induction ops as [|o ops IH]; [reflexivity | exact IH]. Qed.

(** A getter that every step either leaves alone or sets to the argument that
    [pick] selects reads, after a run, the last selected argument. *)
Lemma run_last_of {S O A : Type} (step : S -> O -> S) (get : S -> A)
    (pick : O -> option A) :
  (forall s o, get (step s o) = match pick o with Some a => a | None => get s end) ->
  forall ops s, get (fold_left step ops s) = Session.last_of pick ops (get s).
Proof.
  intros Hstep ops. induction ops as [|o ops IH]; intros s.
  - reflexivity.
  - cbn [fold_left]. rewrite IH, Hstep. reflexivity.
Qed.

(** X1.  Over any run of [Update], [UpdateOldValues] and [ApplyTransformation]
    calls: the current value of each kind is the argument of the last
    [Update] of that kind (the value before the run when there is none), a
    commit at the end of the run makes it the old value, and the actor
    instance the callback is bound to never changes. *)
Theorem callback_run_last_update (ops : list Session.CallbackOp) (cb : CB.t) :
  CB.GetCurrValueVec (Session.callback_run ops cb)
    = Session.last_of Session.vec_arg ops (CB.GetCurrValueVec cb) /\
  CB.GetCurrValueQuat (Session.callback_run ops cb)
    = Session.last_of Session.quat_arg ops (CB.GetCurrValueQuat cb) /\
  CB.GetOldValueVec (CB.ApplyTransformation (Session.callback_run ops cb))
    = Session.last_of Session.vec_arg ops (CB.GetCurrValueVec cb) /\
  CB.GetOldValueQuat (CB.ApplyTransformation (Session.callback_run ops cb))
    = Session.last_of Session.quat_arg ops (CB.GetCurrValueQuat cb) /\
  CB.GetActorInstance (Session.callback_run ops cb) = CB.GetActorInstance cb.
Proof.
  assert (Hv : CB.GetCurrValueVec (Session.callback_run ops cb)
               = Session.last_of Session.vec_arg ops (CB.GetCurrValueVec cb)).
  { apply (run_last_of Session.callback_step CB.GetCurrValueVec Session.vec_arg).
    intros s [[v|q]| |]; reflexivity. }
  assert (Hq : CB.GetCurrValueQuat (Session.callback_run ops cb)
               = Session.last_of Session.quat_arg ops (CB.GetCurrValueQuat cb)).
  { apply (run_last_of Session.callback_step CB.GetCurrValueQuat Session.quat_arg).
    intros s [[v|q]| |]; reflexivity. }
  repeat split; try assumption.
  unfold Session.callback_run.
  rewrite (run_last_of Session.callback_step CB.GetActorInstance (fun _ => None)).
  - apply last_of_none.
  - intros s [[v|q]| |]; reflexivity.
Qed.

(* ================================================================== *)
(** ** Runs of calls on a manipulator *)
(* ================================================================== *)

(** X2.  Over any run of member-function calls, each of the lock state, the
    visibility, the name, the scaling factor, the mode, the render offset and
    the callback is what the last call of its own setter stored (what it was
    before the run when that setter is not called): no member function writes
    a member other than its own, [Init] and [SetRenderOffset] included, and
    [mTempString] is never written. *)
Theorem run_last_setter_wins (ops : list Session.ManipulatorOp) (m : TM.t) :
  TM.GetSelectionLocked (Session.run ops m)
    = Session.last_of Session.lock_arg ops (TM.GetSelectionLocked m) /\
  TM.GetIsVisible (Session.run ops m)
    = Session.last_of Session.visible_arg ops (TM.GetIsVisible m) /\
  TM.GetName (Session.run ops m)
    = Session.last_of Session.name_arg ops (TM.GetName m) /\
  TM.mScalingFactor (Session.run ops m)
    = Session.last_of Session.scale_arg ops (TM.mScalingFactor m) /\
  TM.GetMode (Session.run ops m)
    = Session.last_of Session.mode_arg ops (TM.GetMode m) /\
  TM.GetRenderOffset (Session.run ops m)
    = Session.last_of Session.offset_arg ops (TM.GetRenderOffset m) /\
  TM.GetCallback (Session.run ops m)
    = Session.last_of Session.callback_arg ops (TM.GetCallback m) /\
  TM.mTempString (Session.run ops m) = TM.mTempString m.
Proof.
  unfold Session.run.
  repeat split;
    try (apply (run_last_of Session.step); intros s []; reflexivity).
  rewrite (run_last_of Session.step TM.mTempString (fun _ => None)).
  - apply last_of_none.
  - intros s []; reflexivity.
Qed.

Lemma run_GetMode (ops : list Session.ManipulatorOp) (m : TM.t) :
  TM.GetMode (Session.run ops m)
  = Session.last_of Session.mode_arg ops (TM.GetMode m).
Proof. apply (run_last_of Session.step). intros s []; reflexivity. Qed.

Lemma last_mode_indeterminate (ops : list Session.ManipulatorOp) (d : member uint32) :
  Session.last_of Session.mode_arg ops d = Indeterminate
  <-> d = Indeterminate /\ existsb Session.is_SetMode ops = false.
Proof.
  revert d; induction ops as [|o ops IH]; intros d.
  - cbn. tauto.
  - rewrite last_of_cons, IH. cbn [existsb].
    destruct o; cbn [Session.mode_arg Session.is_SetMode orb];
      try tauto.
    split; [intros [H _]; discriminate H | intros [_ H]; discriminate H].
Qed.

(** X3.  On a constructed manipulator, whatever the constructor arguments and
    whatever is called afterwards, [GetMode] reads an assigned value exactly
    when [SetMode] has been called at least once. *)
Theorem GetMode_determinate_iff_SetMode (scalingFactor : float) (isVisible : bool)
    (ops : list Session.ManipulatorOp) :
  TM.GetMode (Session.run ops (TM.New scalingFactor isVisible)) = Indeterminate
  <-> existsb Session.is_SetMode ops = false.
Proof.
  rewrite run_GetMode, last_mode_indeterminate. cbn. tauto.
Qed.

(** X4.  Only [Init] and [SetRenderOffset] move the gizmo: a run of any other
    member functions ([SetScale], [SetMode], [SetCallback], [Render],
    [ProcessMouseInput], the name, lock and visibility setters) leaves
    [mPosition] and what [GetPosition] returns as they were. *)
Theorem run_without_Init_keeps_position (ops : list Session.ManipulatorOp) (m : TM.t) :
  existsb Session.moves_gizmo ops = false ->
  TM.mPosition (Session.run ops m) = TM.mPosition m /\
  TM.GetPosition (Session.run ops m) = TM.GetPosition m.
Proof.
  unfold Session.run. revert m; induction ops as [|o ops IH]; intros m Hno.
  - split; reflexivity.
  - cbn [existsb] in Hno. apply orb_false_iff in Hno. destruct Hno as [Ho Hops].
    cbn [fold_left]. destruct (IH (Session.step m o) Hops) as [-> ->].
    destruct o; try discriminate Ho; split; reflexivity.
Qed.

Lemma run_without_Init_keeps_position_witness :
  TM.mPosition
    (Session.run [Session.SetScale (of_Z 2) nullptr; Session.SetMode 3;
                  Session.SetCallback (Some (CB.New_Vector3 nullptr (vec 1 2 3)));
                  Session.ProcessMouseInput nullptr 10 20 1 (-1) true false false 0;
                  Session.SetSelectionLocked true]
                 (TM.Init (vec 1 2 3) TM.New_default))
  = TM.mPosition (TM.Init (vec 1 2 3) TM.New_default) /\
  TM.GetPosition
    (Session.run [Session.SetScale (of_Z 2) nullptr; Session.SetMode 3;
                  Session.SetCallback (Some (CB.New_Vector3 nullptr (vec 1 2 3)));
                  Session.ProcessMouseInput nullptr 10 20 1 (-1) true false false 0;
                  Session.SetSelectionLocked true]
                 (TM.Init (vec 1 2 3) TM.New_default))
  = TM.GetPosition (TM.Init (vec 1 2 3) TM.New_default).
Proof.
  apply (run_without_Init_keeps_position
           [Session.SetScale (of_Z 2) nullptr; Session.SetMode 3;
            Session.SetCallback (Some (CB.New_Vector3 nullptr (vec 1 2 3)));
            Session.ProcessMouseInput nullptr 10 20 1 (-1) true false false 0;
            Session.SetSelectionLocked true]
           (TM.Init (vec 1 2 3) TM.New_default)).
  reflexivity.
Defined.




Lemma fresh_anchored (e : Z) (scalingFactor : float) (isVisible : bool) :
  anchored e (TM.New scalingFactor isVisible).
Proof.
  assert (Hs : Session.small 0) by (unfold Session.small; cbn; lia).
  split; exists 0, 0, 0; repeat split; assumption.
Qed.



(* ================================================================== *)
(** ** Infinities and NaN in the position *)
(* ================================================================== *)

Lemma fsub_fadd_infinite (q o : float) :
  is_infinite o = true -> fsub (fadd q o) o = S754_nan.
Proof.
  destruct o as [s|s| |s m e]; try discriminate. intros _.
  destruct q as [[|]|[|]| |[|] m e], s; reflexivity.
Qed.

Lemma fsub_fadd_nan (q o : float) :
  is_nan q = true -> fsub (fadd q o) o = S754_nan.
Proof.
  destruct q as [s|s| |s m e]; try discriminate. intros _.
  destruct o as [[|]|[|]| |[|] m e]; reflexivity.
Qed.

Lemma component_round_trip (ax : axis) (p o : Vector3) :
  component ax ((p + o) - o)%vec
  = fsub (fadd (component ax p) (component ax o)) (component ax o).
Proof. destruct ax; reflexivity. Qed.

(** X7.  A component that is NaN in [GetPosition], or infinite in the new offset,
    is NaN in [GetPosition] after [SetRenderOffset]: an infinite render
    offset loses the logical position along that axis, and no later render
    offset brings it back. *)
Theorem SetRenderOffset_poisons (ax : axis) (o : Vector3) (m : TM.t) :
  is_nan (component ax (TM.GetPosition m)) || is_infinite (component ax o) = true ->
  component ax (TM.GetPosition (TM.SetRenderOffset o m)) = S754_nan.
Proof.
  intros H. rewrite GetPosition_SetRenderOffset, component_round_trip.
  apply orb_true_iff in H. destruct H as [H|H].
  - now apply fsub_fadd_nan.
  - now apply fsub_fadd_infinite.
Qed.

Lemma SetRenderOffset_poisons_witness :
  component AxisY
    (TM.GetPosition
       (TM.SetRenderOffset (mkVector3 f_zero (S754_infinity false) f_zero)
          (TM.Init (vec 1 2 3) TM.New_default)))
  = S754_nan.
Proof.
  apply (SetRenderOffset_poisons AxisY
           (mkVector3 f_zero (S754_infinity false) f_zero)
           (TM.Init (vec 1 2 3) TM.New_default)).
  reflexivity.
Defined.

(** X8.  While a component of the render offset is infinite, [Init] cannot give
    that component of the position a value: [GetPosition] reads NaN there for
    every argument of [Init]. *)
Theorem Init_under_infinite_offset (ax : axis) (p : Vector3) (m : TM.t) :
  is_infinite (component ax (TM.mRenderOffset m)) = true ->
  component ax (TM.GetPosition (TM.Init p m)) = S754_nan.
Proof.
  intros H. rewrite GetPosition_Init, component_round_trip.
  now apply fsub_fadd_infinite.
Qed.

Lemma Init_under_infinite_offset_witness :
  component AxisX
    (TM.GetPosition
       (TM.Init (vec 1 2 3)
          (TM.SetRenderOffset (mkVector3 (S754_infinity true) f_zero f_zero)
             TM.New_default)))
  = S754_nan.
Proof.
  apply (Init_under_infinite_offset AxisX (vec 1 2 3)
           (TM.SetRenderOffset (mkVector3 (S754_infinity true) f_zero f_zero)
              TM.New_default)).
  reflexivity.
Defined.

(* ================================================================== *)
(** ** Who owns the callback *)
(* ================================================================== *)

Lemma delete_owned (p : pointer) (h : Ownership.store) :
  Ownership.owns p h ->
  exists h', Ownership.delete p h = Some h' /\
             Ownership.live h' p = false /\
             (forall q, q <> p -> h' q = h q).
Proof.
  unfold Ownership.owns, Ownership.live, Ownership.delete.
  intros [->|Hl].
  - exists h. cbn. repeat split.
  - apply andb_true_iff in Hl. destruct Hl as [Hn Hp].
    apply negb_true_iff in Hn. rewrite Hn.
    destruct (h p) as [cb|] eqn:E; [|discriminate].
    eexists. split; [reflexivity|]. split.
    + rewrite N.eqb_refl. apply andb_false_r.
    + intros q Hq. apply N.eqb_neq in Hq. now rewrite Hq.
Qed.

(** X10.  [SetCallback(callback)], on a manipulator whose [mCallback] is null or
    live, with a [callback] that is null or a live object other than the one
    already held: the call is defined, [GetCallback()] is [callback] and is
    again null or live, the object held before is freed, every other object is
    untouched, and the object behind the pointer is the one passed in. *)
Theorem SetCallback_takes_ownership (callback mCallback : pointer) (h : Ownership.store) :
  Ownership.owns mCallback h ->
  callback = nullptr \/ (Ownership.live h callback = true /\ callback <> mCallback) ->
  exists h',
    Ownership.SetCallback callback mCallback h = Some (callback, h') /\
    Ownership.owns callback h' /\
    Ownership.live h' mCallback = false /\
    (forall q, q <> mCallback -> h' q = h q) /\
    Ownership.pointee callback h' = Ownership.pointee callback h.
Proof.
  intros Hown Hnew.
  destruct (delete_owned mCallback h Hown) as (h' & Hd & Hfree & Hframe).
  exists h'. unfold Ownership.SetCallback. rewrite Hd.
  split; [reflexivity|].
  destruct Hnew as [->|[Hl Hne]].
  - repeat split; try assumption. now left.
  - assert (E : h' callback = h callback) by now apply Hframe.
    repeat split; try assumption.
    + right. unfold Ownership.live in *. now rewrite E.
    + unfold Ownership.pointee. now rewrite E.
Qed.

Lemma SetCallback_takes_ownership_witness :
  let h : Ownership.store :=
    fun p => if N.eqb p 8 then Some (CB.New_Vector3 nullptr (vec 1 2 3))
             else if N.eqb p 16 then Some (CB.New_Vector3 nullptr (vec 4 5 6))
             else None in
  exists h',
    Ownership.SetCallback 16%N 8%N h = Some (16%N, h') /\
    Ownership.owns 16%N h' /\
    Ownership.live h' 8%N = false /\
    (forall q, q <> 8%N -> h' q = h q) /\
    Ownership.pointee 16%N h' = Ownership.pointee 16%N h.
Proof.
  cbv zeta.
  apply (SetCallback_takes_ownership 16%N 8%N).
  - right. reflexivity.
  - right. split; [reflexivity | discriminate].
Defined.

(** X11.  [SetCallback(GetCallback())] on a manipulator that holds a callback: the
    call frees the object and stores its address again, so [GetCallback()]
    then points to no live object, and the destructor, like any further
    [SetCallback], deletes that address a second time. *)
Theorem SetCallback_self_assignment (mCallback : pointer) (h : Ownership.store) :
  Ownership.live h mCallback = true ->
  exists h',
    Ownership.SetCallback mCallback mCallback h = Some (mCallback, h') /\
    Ownership.live h' mCallback = false /\
    Ownership.pointee mCallback h' = None /\
    Ownership.Destroy mCallback h' = None /\
    (forall callback, Ownership.SetCallback callback mCallback h' = None).
Proof.
  intros Hl.
  destruct (delete_owned mCallback h (or_intror Hl)) as (h' & Hd & Hfree & Hframe).
  exists h'. unfold Ownership.SetCallback, Ownership.Destroy. rewrite Hd.
  unfold Ownership.live in Hl, Hfree. apply andb_true_iff in Hl.
  destruct Hl as [Hn _]. rewrite Hn in Hfree. cbn [andb] in Hfree.
  apply negb_true_iff in Hn.
  assert (E : h' mCallback = None) by (destruct (h' mCallback); [discriminate | reflexivity]).
  assert (D : Ownership.delete mCallback h' = None).
  { unfold Ownership.delete. now rewrite Hn, E. }
  repeat split.
  - unfold Ownership.live. rewrite E. apply andb_false_r.
  - unfold Ownership.pointee. now rewrite Hn.
  - exact D.
  - intros callback. now rewrite D.
Qed.

Lemma SetCallback_self_assignment_witness :
  let h : Ownership.store :=
    fun p => if N.eqb p 8 then Some (CB.New_Vector3 nullptr (vec 1 2 3)) else None in
  exists h',
    Ownership.SetCallback 8%N 8%N h = Some (8%N, h') /\
    Ownership.live h' 8%N = false /\
    Ownership.pointee 8%N h' = None /\
    Ownership.Destroy 8%N h' = None /\
    (forall callback, Ownership.SetCallback callback 8%N h' = None).
Proof.
  cbv zeta. apply (SetCallback_self_assignment 8%N). reflexivity.
Defined.

(** X12.  The destructor is defined exactly when [mCallback] is null or live; it
    then frees the callback and touches no other object. *)
Theorem Destroy_defined_iff_owns (mCallback : pointer) (h : Ownership.store) :
  (Ownership.Destroy mCallback h <> None <-> Ownership.owns mCallback h) /\
  (forall h', Ownership.Destroy mCallback h = Some h' ->
     Ownership.live h' mCallback = false /\
     (forall q, q <> mCallback -> h' q = h q)).
Proof.
  split; [split|].
  - unfold Ownership.Destroy, Ownership.delete, Ownership.owns, Ownership.live.
    destruct (N.eqb mCallback nullptr) eqn:En.
    + intros _. left. now apply N.eqb_eq.
    + destruct (h mCallback); [intros _; now right | intros H; now elim H].
  - intros Hown. destruct (delete_owned mCallback h Hown) as (h' & Hd & _).
    unfold Ownership.Destroy. rewrite Hd. discriminate.
  - intros h' Hd. unfold Ownership.Destroy, Ownership.delete in Hd.
    unfold Ownership.live.
    destruct (N.eqb mCallback nullptr) eqn:En.
    + injection Hd as <-. split; reflexivity.
    + destruct (h mCallback) eqn:E; [|discriminate]. injection Hd as <-.
      rewrite N.eqb_refl. cbn. split; [reflexivity|].
      intros q Hq. apply N.eqb_neq in Hq. now rewrite Hq.
Qed.

(* ================================================================== *)
(** ** GUID: construction, comparison, conversion *)
(* ================================================================== *)

Lemma store_at_spec (i : nat) (b : Z) (arr : list Z) :
  Guid.store_at i b arr
  = if (i <? List.length arr)%nat
    then Some (firstn i arr ++ b :: skipn (S i) arr) else None.
Proof.
  revert i; induction arr as [|a arr IH]; intros i.
  - destruct i; reflexivity.
  - destruct i as [|i]; [reflexivity|].
    cbn [Guid.store_at]. rewrite IH.
    change (S i <? List.length (a :: arr))%nat with (i <? List.length arr)%nat.
    destruct (i <? List.length arr)%nat; reflexivity.
Qed.

Lemma copy_from_spec (d4 : list Z) (i : nat) (arr : list Z) :
  (i <= List.length arr)%nat ->
  Guid.copy_from i d4 arr
  = if (i + List.length d4 <=? List.length arr)%nat
    then Some (firstn i arr ++ d4 ++ skipn (i + List.length d4) arr) else None.
Proof.
  revert i arr; induction d4 as [|b d4 IH]; intros i arr Hi.
  - cbn [Guid.copy_from List.length app]. rewrite Nat.add_0_r.
    apply Nat.leb_le in Hi. rewrite Hi. now rewrite firstn_skipn.
  - cbn [Guid.copy_from List.length]. rewrite store_at_spec.
    destruct (Nat.ltb_spec i (List.length arr)) as [Hlt|Hge].
    + assert (Hlen : List.length (firstn i arr ++ b :: skipn (S i) arr) = List.length arr).
      { rewrite length_app, length_firstn. cbn [List.length]. rewrite length_skipn. lia. }
      rewrite IH by lia. rewrite Hlen.
      replace (i + S (List.length d4))%nat with (S i + List.length d4)%nat by lia.
      destruct (S i + List.length d4 <=? List.length arr)%nat eqn:E; [|reflexivity].
      f_equal.
      assert (Hf : firstn (S i) (firstn i arr ++ b :: skipn (S i) arr) = firstn i arr ++ [b]).
      { rewrite firstn_app, length_firstn.
        replace (S i - Nat.min i (List.length arr))%nat with 1%nat by lia.
        rewrite firstn_firstn. replace (Nat.min (S i) i) with i by lia.
        reflexivity. }
      assert (Hs : skipn (S i + List.length d4) (firstn i arr ++ b :: skipn (S i) arr)
                   = skipn (S i + List.length d4) arr).
      { rewrite skipn_app, length_firstn.
        rewrite (skipn_all2 (firstn i arr)) by (rewrite length_firstn; lia).
        replace (S i + List.length d4 - Nat.min i (List.length arr))%nat
          with (S (List.length d4)) by lia.
        cbn [app]. rewrite skipn_cons, skipn_skipn. f_equal. lia. }
      rewrite Hf, Hs, <- app_assoc. reflexivity.
    + destruct (i + S (List.length d4) <=? List.length arr)%nat eqn:E; [|reflexivity].
      apply Nat.leb_le in E. lia.
Qed.

Lemma New_unfold (storage : list Z) (d1 d2 d3 : Z) (d4 : list Z) :
  Guid.New storage d1 d2 d3 d4
  = if (List.length d4 <=? List.length storage)%nat
    then Some (Guid.mk d1 d2 d3 (d4 ++ skipn (List.length d4) storage))
    else None.
Proof.
  unfold Guid.New. rewrite copy_from_spec by apply Nat.le_0_l.
  cbn [Nat.add firstn app].
  destruct (List.length d4 <=? List.length storage)%nat; reflexivity.
Qed.

(** X13.  The constructor copies the initializer list over the front of [Data4]
    and leaves the rest of the array as it found it (it is not zeroed): a
    list of exactly eight bytes fixes the whole array whatever it held, a
    shorter one keeps the trailing bytes of the storage, and a longer one
    writes past the end of the array. *)
Theorem New_copies_prefix (storage : list Z) (d1 d2 d3 : Z) (d4 : list Z) :
  List.length storage = 8%nat ->
  (List.length d4 = 8%nat -> Guid.New storage d1 d2 d3 d4 = Some (Guid.mk d1 d2 d3 d4)) /\
  ((List.length d4 <= 8)%nat ->
   Guid.New storage d1 d2 d3 d4
   = Some (Guid.mk d1 d2 d3 (d4 ++ skipn (List.length d4) storage))) /\
  ((8 < List.length d4)%nat -> Guid.New storage d1 d2 d3 d4 = None).
Proof.
  intros Hs. rewrite New_unfold, Hs. repeat split.
  - intros H8. rewrite H8. cbn [Nat.leb].
    rewrite skipn_all2, app_nil_r by lia. reflexivity.
  - intros Hle. apply Nat.leb_le in Hle. now rewrite Hle.
  - intros Hgt. apply Nat.leb_gt in Hgt. now rewrite Hgt.
Qed.

Lemma New_copies_prefix_witness :
  Guid.New [9; 9; 9; 9; 9; 9; 9; 9] 1 2 3 [10; 20]
  = Some (Guid.mk 1 2 3 [10; 20; 9; 9; 9; 9; 9; 9]).
Proof.
  apply (New_copies_prefix [9; 9; 9; 9; 9; 9; 9; 9] 1 2 3 [10; 20]).
  - reflexivity.
  - cbn. lia.
Defined.

Lemma memcmp_zero_iff (n : nat) (a b : list Z) :
  List.length a = n -> List.length b = n ->
  (Guid.memcmp a b n = 0 <-> a = b).
Proof.
  revert a b; induction n as [|n IH]; intros a b Ha Hb.
  - destruct a, b; try discriminate. cbn. tauto.
  - destruct a as [|u a], b as [|v b]; try discriminate.
    cbn [Guid.memcmp]. injection Ha as Ha. injection Hb as Hb.
    destruct (Z.ltb_spec u v) as [Huv|Huv].
    + split; [discriminate | intros E; injection E as E _; lia].
    + destruct (Z.ltb_spec v u) as [Hvu|Hvu].
      * split; [discriminate | intros E; injection E as E _; lia].
      * assert (u = v) by lia. subst v. rewrite (IH a b Ha Hb).
        split; [intros ->; reflexivity | intros E; now injection E].
Qed.

(** X14.  On two GUIDs (whose [Data4] are arrays of eight bytes), [operator==]
    answers true exactly when the four members are equal, byte for byte, and
    [operator!=] exactly when they are not: the comparison is an equivalence
    and misses no difference. *)
Theorem op_eq_decides_equality (g h : Guid.t) :
  List.length (Guid.Data4 g) = 8%nat -> List.length (Guid.Data4 h) = 8%nat ->
  (Guid.op_eq g h = true <-> g = h) /\ (Guid.op_neq g h = true <-> g <> h).
Proof.
  intros Hg Hh.
  assert (E : Guid.op_eq g h = true <-> g = h).
  { unfold Guid.op_eq. rewrite !andb_true_iff, !Z.eqb_eq.
    rewrite (memcmp_zero_iff 8 _ _ Hg Hh).
    destruct g as [g1 g2 g3 g4], h as [h1 h2 h3 h4]; cbn [Guid.Data1 Guid.Data2 Guid.Data3 Guid.Data4].
    split.
    - intros [[[-> ->] ->] ->]. reflexivity.
    - intros H. injection H as -> -> -> ->. repeat split. }
  split; [exact E|].
  unfold Guid.op_neq. rewrite negb_true_iff.
  destruct (Guid.op_eq g h) eqn:B.
  - split; [discriminate | intros Hne; elim Hne; now apply E].
  - split; [intros _ Heq; apply E in Heq; discriminate | reflexivity].
Qed.

Lemma op_eq_decides_equality_witness :
  (Guid.op_eq (Guid.mk 1 2 3 [1; 2; 3; 4; 5; 6; 7; 8]) Guid.GUID_NULL = true
   <-> Guid.mk 1 2 3 [1; 2; 3; 4; 5; 6; 7; 8] = Guid.GUID_NULL) /\
  (Guid.op_neq (Guid.mk 1 2 3 [1; 2; 3; 4; 5; 6; 7; 8]) Guid.GUID_NULL = true
   <-> Guid.mk 1 2 3 [1; 2; 3; 4; 5; 6; 7; 8] <> Guid.GUID_NULL).
Proof.
  apply (op_eq_decides_equality (Guid.mk 1 2 3 [1; 2; 3; 4; 5; 6; 7; 8]) Guid.GUID_NULL);
    reflexivity.
Defined.

Lemma elements8_id (a : list Z) : List.length a = 8%nat -> Guid.elements8 a = a.
Proof.
  intros H. do 8 (destruct a as [|? a]; [discriminate|]).
  destruct a; [reflexivity | discriminate].
Qed.

(** X15.  A [QUuid] converted to a GUID and back is the same [QUuid], wherever the
    temporary GUID is built. *)
Theorem QUuid_round_trip (storage : list Z) (q : Guid.QUuid) :
  Guid.wf_QUuid q -> List.length storage = 8%nat ->
  exists g, Guid.of_QUuid storage q = Some g /\ Guid.to_QUuid g = q.
Proof.
  intros (H1 & H2 & H3 & H4 & H5) Hs.
  unfold Guid.of_QUuid. rewrite New_unfold, elements8_id by assumption.
  rewrite H4, Hs. cbn [Nat.leb].
  rewrite skipn_all2, app_nil_r by lia.
  eexists. split; [reflexivity|].
  unfold Guid.to_QUuid; cbn [Guid.Data1 Guid.Data2 Guid.Data3 Guid.Data4].
  rewrite elements8_id by assumption.
  unfold Guid.uint in H1. rewrite Z.mod_small by assumption.
  now destruct q.
Qed.

Lemma QUuid_round_trip_witness :
  exists g,
    Guid.of_QUuid [9; 9; 9; 9; 9; 9; 9; 9]
      (Guid.mkQUuid 4294967295 65535 7 [1; 2; 3; 4; 5; 6; 7; 255]) = Some g /\
    Guid.to_QUuid g = Guid.mkQUuid 4294967295 65535 7 [1; 2; 3; 4; 5; 6; 7; 255].
Proof.
  apply (QUuid_round_trip [9; 9; 9; 9; 9; 9; 9; 9]
           (Guid.mkQUuid 4294967295 65535 7 [1; 2; 3; 4; 5; 6; 7; 255])).
  - unfold Guid.wf_QUuid, Guid.uint, Guid.ushort, Guid.uchar. cbn.
    repeat split; try lia. repeat constructor; lia.
  - reflexivity.
Defined.

(** X16.  A GUID converted to a [QUuid] and back is the same GUID exactly when its
    [Data1] fits 32 bits: where [unsigned long] is wider, the upper bits of
    [Data1] do not survive the conversion. *)
Theorem GUID_round_trip_iff (ulong_bits : Z) (storage : list Z) (g : Guid.t) :
  Guid.wf ulong_bits g -> List.length storage = 8%nat ->
  (Guid.of_QUuid storage (Guid.to_QUuid g) = Some g <-> Guid.Data1 g < 2 ^ 32).
Proof.
  intros (H1 & H2 & H3 & H4 & H5) Hs.
  unfold Guid.of_QUuid, Guid.to_QUuid; cbn [Guid.data1 Guid.data2 Guid.data3 Guid.data4].
  rewrite New_unfold. rewrite !elements8_id by (try assumption; now rewrite elements8_id).
  rewrite H4, Hs. cbn [Nat.leb]. rewrite skipn_all2, app_nil_r by lia.
  unfold Guid.ulong in H1.
  destruct g as [g1 g2 g3 g4]; cbn [Guid.Data1 Guid.Data2 Guid.Data3 Guid.Data4] in *.
  split.
  - intros E. injection E as E. rewrite <- E. apply Z.mod_pos_bound. lia.
  - intros Hlt. rewrite Z.mod_small by lia. reflexivity.
Qed.

Lemma GUID_round_trip_iff_witness :
  Guid.of_QUuid [0; 0; 0; 0; 0; 0; 0; 0]
    (Guid.to_QUuid (Guid.mk 4294967296 2 3 [1; 2; 3; 4; 5; 6; 7; 8]))
  <> Some (Guid.mk 4294967296 2 3 [1; 2; 3; 4; 5; 6; 7; 8]).
Proof.
  intros E.
  apply (GUID_round_trip_iff 64 [0; 0; 0; 0; 0; 0; 0; 0]
           (Guid.mk 4294967296 2 3 [1; 2; 3; 4; 5; 6; 7; 8])) in E.
  - cbn in E. lia.
  - unfold Guid.wf, Guid.ulong, Guid.ushort, Guid.uchar. cbn.
    repeat split; try lia. repeat constructor; lia.
  - reflexivity.
Defined.

(* ================================================================== *)
(** ** TranslationKeyedString: the display string *)
(* ================================================================== *)

Lemma string_empty_iff (s : string) : TKS.string_empty s = true <-> s = EmptyString.
Proof. destruct s; cbn; split; congruence. Qed.

Lemma TranslateString_keeps_key (tr : TKS.translator) (s : TKS.t) :
  TKS.m_fallback (TKS.TranslateString tr s) = TKS.m_fallback s /\
  TKS.m_context (TKS.TranslateString tr s) = TKS.m_context s /\
  TKS.m_key (TKS.TranslateString tr s) = TKS.m_key s.
Proof. repeat split. Qed.

(** X17.  The display string of a freshly constructed object: the fallback
    when the context or the key is empty, the fallback when the translator
    answers the key itself, and the translator's answer when context and key
    are both given and the answer is anything else; the untranslated key is
    thus never displayed in place of the fallback, and the object keeps its
    fallback, context and key and holds the string it displayed. *)
Theorem display_is_fallback_or_translation (tr : TKS.translator)
    (fallback context key : string) :
  let r := TKS.GetDisplayString tr (TKS.New fallback context key) in
  (TKS.string_empty context || TKS.string_empty key = true -> fst r = fallback) /\
  (tr context key = key -> fst r = fallback) /\
  (TKS.string_empty context = false -> TKS.string_empty key = false ->
   tr context key <> key -> fst r = tr context key) /\
  (fst r = fallback \/ fst r <> key) /\
  snd r = TKS.mk fallback context key (fst r).
Proof.
  cbv zeta. unfold TKS.GetDisplayString, TKS.New, TKS.TranslateString.
  cbn [TKS.m_display TKS.m_fallback TKS.m_context TKS.m_key TKS.string_empty fst snd].
  destruct (TKS.string_empty context) eqn:Ec, (TKS.string_empty key) eqn:Ek;
    cbn [negb andb orb]; try (repeat split; auto; discriminate).
  destruct (String.eqb_spec (tr context key) key) as [E|E]; cbn [negb].
  - repeat split; auto. intros _ _ H. now elim H.
  - repeat split; auto; try discriminate. intros H. now elim E.
Qed.

(** X18.  [GetDisplayString] computes the display string once: it never changes
    the fallback, the context or the key; a second call under the same
    translator returns the same string and the same object; and once the
    string is not empty, every later call returns it unchanged whatever
    translator is then in force, without consulting it. *)
Theorem GetDisplayString_caches (tr : TKS.translator) (s : TKS.t) :
  let r := TKS.GetDisplayString tr s in
  (TKS.m_fallback (snd r) = TKS.m_fallback s /\
   TKS.m_context (snd r) = TKS.m_context s /\
   TKS.m_key (snd r) = TKS.m_key s) /\
  TKS.m_display (snd r) = fst r /\
  TKS.GetDisplayString tr (snd r) = r /\
  (TKS.string_empty (fst r) = false ->
   forall tr', TKS.GetDisplayString tr' (snd r) = r).
Proof.
  cbv zeta. unfold TKS.GetDisplayString.
  destruct (TKS.string_empty (TKS.m_display s)) eqn:Es; cbn [fst snd].
  - split; [apply TranslateString_keeps_key|]. split; [reflexivity|].
    split.
    + destruct (TKS.string_empty (TKS.m_display (TKS.TranslateString tr s))) eqn:Et;
        [|reflexivity].
      assert (Hid : TKS.TranslateString tr (TKS.TranslateString tr s)
                    = TKS.TranslateString tr s) by reflexivity.
      now rewrite Hid.
    + intros Hne tr'. now rewrite Hne.
  - split; [repeat split|]. split; [reflexivity|].
    rewrite Es. split; [reflexivity | intros _ tr'; reflexivity].
Qed.

(** X19.  When [empty()] answers true on an object whose display string is not
    yet computed, the display string is empty under every translator. *)
Theorem empty_has_empty_display (tr : TKS.translator) (s : TKS.t) :
  TKS.empty s = true -> TKS.m_display s = EmptyString ->
  fst (TKS.GetDisplayString tr s) = EmptyString.
Proof.
  unfold TKS.empty, TKS.GetDisplayString, TKS.TranslateString.
  intros He Hd. rewrite Hd. cbn [TKS.string_empty fst TKS.m_display].
  apply andb_true_iff in He. destruct He as [Hf Hck].
  apply string_empty_iff in Hf. rewrite Hf.
  apply orb_true_iff in Hck. destruct Hck as [Hc|Hk].
  - now rewrite Hc.
  - rewrite Hk. now rewrite andb_false_r.
Qed.

Lemma empty_has_empty_display_witness :
  fst (TKS.GetDisplayString (fun context key => append context key)
         (TKS.New EmptyString "c"%string EmptyString))
  = EmptyString.
Proof.
  apply (empty_has_empty_display (fun context key => append context key)
           (TKS.New EmptyString "c"%string EmptyString));
    reflexivity.
Defined.

Lemma op_eq_iff (a b : TKS.t) :
  TKS.op_eq a b = true <->
  TKS.m_fallback a = TKS.m_fallback b /\ TKS.m_context a = TKS.m_context b /\
  TKS.m_key a = TKS.m_key b.
Proof.
  unfold TKS.op_eq. rewrite !andb_true_iff, !String.eqb_eq. tauto.
Qed.

(** X20.  [operator==] compares the fallback, the context and the key and
    nothing else: it gives the same answer whatever either display string
    holds, so the string that [GetDisplayString] stores behind the [const]
    never changes what an object compares equal to, and two objects that
    display under different translators still compare as they did. *)
Theorem op_eq_ignores_display (tr tr' : TKS.translator) (a b : TKS.t) (d d' : string) :
  (TKS.op_eq a b = true <->
   TKS.m_fallback a = TKS.m_fallback b /\ TKS.m_context a = TKS.m_context b /\
   TKS.m_key a = TKS.m_key b) /\
  TKS.op_eq (TKS.mk (TKS.m_fallback a) (TKS.m_context a) (TKS.m_key a) d)
            (TKS.mk (TKS.m_fallback b) (TKS.m_context b) (TKS.m_key b) d')
    = TKS.op_eq a b /\
  TKS.op_eq (snd (TKS.GetDisplayString tr a)) b = TKS.op_eq a b /\
  TKS.op_eq a (snd (TKS.GetDisplayString tr' b)) = TKS.op_eq a b /\
  TKS.op_eq (snd (TKS.GetDisplayString tr a)) (snd (TKS.GetDisplayString tr' b))
    = TKS.op_eq a b.
Proof.
  split; [apply op_eq_iff|].
  unfold TKS.op_eq, TKS.GetDisplayString.
  destruct (TKS.string_empty (TKS.m_display a)), (TKS.string_empty (TKS.m_display b));
    repeat split.
Qed.

(* ================================================================== *)
(** ** Examples for the position lemmas *)
(* ================================================================== *)

Lemma GetPosition_Init_zero_offset_witness :
  TM.GetPosition (TM.Init (mkVector3 (of_dyadic 3 (-1)) S754_nan (S754_infinity true))
                          TM.New_default)
  = mkVector3 (of_dyadic 3 (-1)) S754_nan (S754_infinity true).
Proof.
  apply (GetPosition_Init_zero_offset
           (mkVector3 (of_dyadic 3 (-1)) S754_nan (S754_infinity true)) TM.New_default).
  - reflexivity.
  - repeat split; discriminate.
Defined.

Lemma GetPosition_SetRenderOffset_via_witness :
  let ubv := fun (camera : pointer) (m : TM.t) => TM.set_mScalingFactor (of_Z 2) m in
  TM.GetPosition (TM.SetRenderOffset_via ubv (vec 10 0 0) (TM.Init (vec 1 2 3) TM.New_default))
  = ((TM.GetPosition (TM.Init (vec 1 2 3) TM.New_default) + vec 10 0 0) - vec 10 0 0)%vec.
Proof.
  cbv zeta.
  apply (GetPosition_SetRenderOffset_via
           (fun (camera : pointer) (m : TM.t) => TM.set_mScalingFactor (of_Z 2) m)).
  intros c m. split; reflexivity.
Defined.
